(** * The buffered pipeline stage of examples/pipeline

    A shallow embedding of [Buffered_Socket.cpp] and [Block.cpp]: the
    buffered port that couples one task socket to circular buffers, and the
    block that drives a task between its input and output ports.

    Conventions.
    - A [std::vector<T>] of scalars is a list of bit patterns ([Z]); the six
      instantiations of [Buffered_Socket<T>] differ only in the socket's
      datatype string, which the model keeps as data.
    - Objects reached through pointers that are shared between ports (the
      circular buffers) live in a store and are named by their index.
    - A call that reads through a null pointer, indexes a vector out of
      range, trips an [assert] or throws is a [Fault]; a loop is bounded by
      a fuel argument and [Spin] is the answer of a loop that used it up. *)

From Stdlib Require Import ZArith Lia Bool.
From stdpp Require Import list strings pretty.

Open Scope Z_scope.

(** A record: one [std::vector<T>], as the sequence of its elements. *)
Abbreviation record := (list Z).

(** [std::vector<T>(n_elt, T(0))]. *)
Definition zero_record (n_elt : nat) : record := replicate n_elt 0.

(** ** Circular_Buffer *)

Module Circular_Buffer.

(** Modelled from the spec: [Circular_Buffer.hpp] is not part of the
    sources at hand.  The buffer owns [capacity] record slots arranged as
    a circular array and tracks a write cursor, a read cursor, the count
    of occupied slots and a stopped flag. *)
Record t := mk {
  slots : list record;
  head : nat;          (* write cursor *)
  tail : nat;          (* read cursor *)
  occupied : nat;
  stopped : bool
}.

(** Modelled from the spec: the capacity is the number of slots. *)
Definition capacity (cb : t) : nat := length (slots cb).

(** Modelled from the spec: the constructor [Circular_Buffer(buffer_size,
    n_elt)]; a capacity below 1 is refused at construction. *)
Definition new (buffer_size : Z) (n_elt : nat) : option t :=
  if buffer_size <? 1 then None
  else Some {| slots := replicate (Z.to_nat buffer_size) (zero_record n_elt);
               head := 0; tail := 0; occupied := 0; stopped := false |}.

(** Modelled from the spec: full is occupied = capacity. *)
Definition is_full (cb : t) : bool := (occupied cb =? capacity cb)%nat.

(** Modelled from the spec: empty is occupied = 0. *)
Definition is_empty (cb : t) : bool := (occupied cb =? 0)%nat.

(** Modelled from the spec: [try_push] fails on a full buffer without
    touching it; otherwise it copies the record into the next free slot,
    advances the write cursor and increments the occupied count. *)
Definition try_push (cb : t) (r : record) : bool * t :=
  if is_full cb then (false, cb)
  else (true, {| slots := <[head cb := r]> (slots cb);
                 head := (head cb + 1) mod capacity cb;
                 tail := tail cb;
                 occupied := S (occupied cb);
                 stopped := stopped cb |}).

(** Modelled from the spec: [try_pop] is symmetric and works on the
    oldest occupied slot. *)
Definition try_pop (cb : t) : option record * t :=
  if is_empty cb then (None, cb)
  else match slots cb !! tail cb with
       | None => (None, cb)
       | Some r => (Some r, {| slots := slots cb;
                               head := head cb;
                               tail := (tail cb + 1) mod capacity cb;
                               occupied := pred (occupied cb);
                               stopped := stopped cb |})
       end.

(** Modelled from the spec: [reset] clears the occupied count and the
    cursors and clears the stopped flag. *)
Definition reset (cb : t) : t :=
  {| slots := slots cb; head := 0; tail := 0; occupied := 0; stopped := false |}.

(** Modelled from the spec: [stop] sets the stopped flag. *)
Definition stop (cb : t) : t :=
  {| slots := slots cb; head := head cb; tail := tail cb;
     occupied := occupied cb; stopped := true |}.

(** Modelled from the spec: [buffer->push(&rec)] as [Buffered_Socket.cpp]
    calls it, a [try_push] that answers in the integer protocol of section 9:
    1 for not done, retry; 0 for completed. *)
Definition push (cb : t) (r : record) : Z * t :=
  let '(ok, cb') := try_push cb r in ((if ok then 0 else 1), cb').

(** Modelled from the spec: [buffer->pop(&rec)], a [try_pop] in the same
    protocol; the caller's record is left as it is when nothing is popped. *)
Definition pop (cb : t) (out : record) : Z * record * t :=
  match try_pop cb with
  | (Some r, cb') => (0, r, cb')
  | (None, cb') => (1, out, cb')
  end.

(** The records waiting in the buffer, oldest first. *)
Definition slot_at (cb : t) (k : nat) : record :=
  default [] (slots cb !! ((tail cb + k) mod capacity cb)%nat).

Definition contents (cb : t) : list record :=
  map (slot_at cb) (seq 0 (occupied cb)).

(** The bookkeeping invariant of section 3 of the specification. *)
Record wf (cb : t) : Prop := {
  wf_cap : (1 <= capacity cb)%nat;
  wf_occ : (occupied cb <= capacity cb)%nat;
  wf_tail : (tail cb < capacity cb)%nat;
  wf_head : head cb = ((tail cb + occupied cb) mod capacity cb)%nat
}.

(** One producer and one consumer: every step of a run is a push by the
    producer or a pop by the consumer. *)
Inductive op := Push (r : record) | Pop.

(** The run keeps what the producer got accepted and what the consumer
    received, both in order. *)
Record history := {
  buf : t;
  pushed : list record;
  popped : list record
}.

Definition step (h : history) (o : op) : history :=
  match o with
  | Push r =>
      let '(ok, cb') := try_push (buf h) r in
      {| buf := cb';
         pushed := if ok then pushed h ++ [r] else pushed h;
         popped := popped h |}
  | Pop =>
      let '(res, cb') := try_pop (buf h) in
      {| buf := cb';
         pushed := pushed h;
         popped := match res with
                   | Some r => popped h ++ [r]
                   | None => popped h
                   end |}
  end.

Definition run (cb : t) (ops : list op) : history :=
  fold_left step ops {| buf := cb; pushed := []; popped := [] |}.

End Circular_Buffer.

(** ** The shared store, ghost events and the environment *)

(** What a run leaves behind for the proofs.  Nothing in the code reads it.
    [EvAccept b r]: buffer [b] accepted record [r]; [EvTake b r]: a record was
    taken out of buffer [b]; the others mark the points of
    [Block::execute_task]: the head of the main loop, the return of a
    port-level [pop] or [push] with its value, the call of the task, the
    [stop] of a port. *)
Inductive event :=
| EvAccept (b : nat) (r : record)
| EvTake (b : nat) (r : record)
| EvLoop
| EvPop (name : string) (rc : Z)
| EvExec
| EvPush (name : string) (rc : Z)
| EvStop (name : string).

(** The circular buffers are reached through pointers held by several ports:
    they live in [bufs] and a pointer is an index into it.  [now] counts the
    points at which the running thread looks at shared memory again. *)
Record Store := {
  bufs : list Circular_Buffer.t;
  now : nat;
  trace : list event
}.

(** The rest of the program, as seen by one thread: the value of [*isDone] at
    each instant, and what the threads at the other end of the buffers have
    done to them by that instant. *)
Record Env := {
  isDone : nat -> bool;
  peers : nat -> list Circular_Buffer.t -> list Circular_Buffer.t
}.

Inductive fault :=
| NullDeref      (* a member is read through a null or dangling pointer *)
| OutOfRange     (* a vector is indexed outside its bounds *)
| AssertFail     (* an assert does not hold *)
| Thrown.        (* a constructor throws *)

Inductive halt := Fault (f : fault) | Spin.

Inductive result (A : Type) :=
| Done (a : A) (st : Store)
| Halt (why : halt) (st : Store).
Arguments Done {A} a st.
Arguments Halt {A} why st.

Definition M (A : Type) : Type := Store -> result A.

Definition ret {A} (a : A) : M A := fun st => Done a st.

Definition bindM {A B} (m : M A) (k : A -> M B) : M B :=
  fun st => match m st with
            | Done a st' => k a st'
            | Halt w st' => Halt w st'
            end.

Notation "'do' x <- m ; k" := (bindM m (fun x => k))
  (at level 10, x name, m at level 100, k at level 200).
Notation "'do' ' p <- m ; k" := (bindM m (fun 'p => k))
  (at level 10, p pattern, m at level 100, k at level 200).

Definition stuck {A} (w : halt) : M A := fun st => Halt w st.

Definition final {A} (r : result A) : Store :=
  match r with Done _ st => st | Halt _ st => st end.

Definition log (e : event) (st : Store) : Store :=
  {| bufs := bufs st; now := now st; trace := trace st ++ [e] |}.

Definition emit (e : event) : M unit := fun st => Done tt (log e st).

(** [*p] for a pointer to a circular buffer. *)
Definition get_buf (b : nat) : M Circular_Buffer.t :=
  fun st => match bufs st !! b with
            | Some cb => Done cb st
            | None => Halt (Fault NullDeref) st
            end.

Definition set_buf (b : nat) (cb : Circular_Buffer.t) : M unit :=
  fun st => Done tt {| bufs := <[b := cb]> (bufs st); now := now st; trace := trace st |}.

(** [new Circular_Buffer<T>(buffer_size, n_elt)]. *)
Definition new_buf (buffer_size : Z) (n_elt : nat) : M nat :=
  fun st => match Circular_Buffer.new buffer_size n_elt with
            | Some cb => Done (length (bufs st))
                           {| bufs := bufs st ++ [cb]; now := now st; trace := trace st |}
            | None => Halt (Fault Thrown) st
            end.

(** [v[i]] on a vector. *)
Definition at_index {A} (l : list A) (i : nat) : M A :=
  match l !! i with
  | Some a => ret a
  | None => stuck (Fault OutOfRange)
  end.

(** One instant passes: the other threads have run. *)
Definition tick (env : Env) (st : Store) : Store :=
  {| bufs := peers env (now st) (bufs st); now := S (now st); trace := trace st |}.

Definition yield (env : Env) : M unit := fun st => Done tt (tick env st).

(** One read of [*isDone]. *)
Definition read_isDone (env : Env) : M bool :=
  fun st => Done (isDone env (now st)) (tick env st).

(** ** aff3ct::module::Socket, as far as the ports use it *)

Inductive Socket_type := IN | IN_OUT | OUT.

Definition Socket_type_eqb (a b : Socket_type) : bool :=
  match a, b with
  | IN, IN | IN_OUT, IN_OUT | OUT, OUT => true
  | _, _ => false
  end.

Record Socket := {
  sck_name : string;               (* get_name() *)
  n_elmts : nat;                   (* get_n_elmts() *)
  datatype_string : string;        (* get_datatype_string() *)
  dataptr : option nat             (* the staging record bound by bind<T>() *)
}.

(** [socket->bind<T>] on the staging record [socket_data[i]]. *)
Definition Socket_bind (s : Socket) (i : nat) : Socket :=
  {| sck_name := sck_name s; n_elmts := n_elmts s;
     datatype_string := datatype_string s; dataptr := Some i |}.

(** The scalar kinds [Buffered_Socket] is instantiated at, and aff3ct's
    table [type_to_string]. *)
Inductive scalar := int8_t | int16_t | int32_t | int64_t | float | double.

Definition type_to_string (T : scalar) : string :=
  match T with
  | int8_t => "int8" | int16_t => "int16" | int32_t => "int32"
  | int64_t => "int64" | float => "float32" | double => "float64"
  end.

(** ** Buffered_Socket.cpp *)

Module Buffered_Socket.

Record t := mk {
  socket : Socket;
  socket_type : Socket_type;
  buffer_size : Z;
  socket_data : list record;
  buffer : list nat;
  pop_buffer_idx : nat
}.

Definition with_buffer (bs : t) (bf : list nat) : t :=
  mk (socket bs) (socket_type bs) (buffer_size bs) (socket_data bs) bf
     (pop_buffer_idx bs).

Definition with_data (bs : t) (sd : list record) (i : nat) : t :=
  mk (Socket_bind (socket bs) i) (socket_type bs) (buffer_size bs) sd
     (buffer bs) (pop_buffer_idx bs).

(** Modelled from the spec: the constructor of the base class,
    [NT_Buffered_Socket(socket, socket_type, buffer_size)], is declared in
    [NT_Buffered_Socket.hpp], which is not part of the sources at hand.
    Section 4.2 of the specification has a port constructed from its
    descriptor and the configured capacity and names no check there: the
    three members are kept as they are given. *)
Definition NT_Buffered_Socket (s : Socket) (ty : Socket_type) (buffer_size : Z) : t :=
  mk s ty buffer_size [] [] 0.

(** [Buffered_Socket(socket, socket_type, buffer_size)]. *)
Definition new (s : Socket) (ty : Socket_type) (buffer_size : Z) : M t :=
  let n_elt := n_elmts s in
  let bs := with_data (NT_Buffered_Socket s ty buffer_size) [zero_record n_elt] 0 in
  if Socket_type_eqb ty OUT || Socket_type_eqb ty IN_OUT then
    do b <- new_buf buffer_size n_elt ;
    ret (with_buffer bs [b])
  else ret bs.

(** Modelled from the spec: [get_last_buffer()] is declared in
    [Buffered_Socket.hpp], which is not part of the sources at hand; it
    answers the null pointer ([None]) when the port has no buffer yet. *)
Definition get_last_buffer (bs : t) : option nat := last (buffer bs).

(** [stop()] and [reset()]: forwarded to every buffer. *)
Fixpoint for_each_buffer (f : Circular_Buffer.t -> Circular_Buffer.t)
    (bf : list nat) : M unit :=
  match bf with
  | [] => ret tt
  | b :: rest =>
      do cb <- get_buf b ;
      do _ <- set_buf b (f cb) ;
      for_each_buffer f rest
  end.

Definition reset (bs : t) : M unit := for_each_buffer Circular_Buffer.reset (buffer bs).
Definition stop (bs : t) : M unit := for_each_buffer Circular_Buffer.stop (buffer bs).

(** [pop()]. *)
Definition pop (bs : t) : M (Z * t) :=
  do b <- at_index (buffer bs) 0 ;
  do cb <- get_buf b ;
  do r0 <- at_index (socket_data bs) 0 ;
  let '(rc, r, cb') := Circular_Buffer.pop cb r0 in
  do _ <- set_buf b cb' ;
  if rc =? 1 then ret (1, bs)
  else
    do _ <- emit (EvTake b r) ;
    ret (0, with_data bs (<[0%nat := r]> (socket_data bs)) 0).

(** The inner loop of [push()]:
    [for (j = 0; j < socket_data[0]->size(); j++)
       socket_data[i]->at(j) = socket_data[0]->at(j);]
    [src] is what is left of record 0 from position [j] on. *)
Fixpoint copy_from (j : nat) (src : list Z) (dst : record) : M record :=
  match src with
  | [] => ret dst
  | x :: src' =>
      if (j <? length dst)%nat then copy_from (S j) src' (<[j := x]> dst)
      else stuck (Fault OutOfRange)
  end.

(** The outer loop, over the records [1 ..]. *)
Fixpoint copy_to_all (r0 : record) (others : list record) : M (list record) :=
  match others with
  | [] => ret []
  | r :: rest =>
      do r' <- copy_from 0 r0 r ;
      do rest' <- copy_to_all r0 rest ;
      ret (r' :: rest')
  end.

Definition replicate_record_0 (sd : list record) : M (list record) :=
  match sd with
  | [] => ret []
  | r0 :: others => do others' <- copy_to_all r0 others ; ret (r0 :: others')
  end.

(** [while (buffer[i]->push(&socket_data[i]) == 1) {};] *)
Fixpoint retry_push (env : Env) (fuel : nat) (b : nat) (r : record) : M unit :=
  match fuel with
  | O => stuck Spin
  | S fuel' =>
      do cb <- get_buf b ;
      let '(rc, cb') := Circular_Buffer.push cb r in
      do _ <- set_buf b cb' ;
      if rc =? 1 then
        do _ <- yield env ;
        retry_push env fuel' b r
      else emit (EvAccept b r)
  end.

(** [for (i = 0; i < buffer.size(); i++) ...], from [i] on. *)
Fixpoint push_each (env : Env) (fuel : nat) (i : nat) (bf : list nat)
    (sd : list record) : M unit :=
  match bf with
  | [] => ret tt
  | b :: rest =>
      do r <- at_index sd i ;
      do _ <- retry_push env fuel b r ;
      push_each env fuel (S i) rest sd
  end.

(** [push()]. *)
Definition push (env : Env) (fuel : nat) (bs : t) : M (Z * t) :=
  do sd <- replicate_record_0 (socket_data bs) ;
  do _ <- push_each env fuel 0 (buffer bs) sd ;
  ret (0, with_data bs sd 0).

(** [create_new_out_buffer()]. *)
Definition create_new_out_buffer (bs : t) : M t :=
  if Socket_type_eqb (socket_type bs) IN then stuck (Fault AssertFail)
  else
    let n_elt := n_elmts (socket bs) in
    do b <- new_buf (buffer_size bs) n_elt ;
    ret (mk (socket bs) (socket_type bs) (buffer_size bs)
            (socket_data bs ++ [zero_record n_elt]) (buffer bs ++ [b])
            (pop_buffer_idx bs)).

(** [bind(s)]; the argument is a pointer, [None] is the null pointer. *)
Definition bind (this : t) (s : option t) : M (Z * t) :=
  match s with
  | None => stuck (Fault NullDeref)
  | Some s =>
      match get_last_buffer s with
      | None => ret (1, this)
      | Some b => ret (0, with_buffer this (buffer this ++ [b]))
      end
  end.

(** [bind_cpy(s)]; answers the code, this port and the other port.  After
    [create_new_out_buffer] the other port has a last buffer. *)
Definition bind_cpy (this : t) (s : option t) : M (Z * t * t) :=
  if negb (Socket_type_eqb (socket_type this) IN) then stuck (Fault AssertFail)
  else
    match s with
    | None => stuck (Fault NullDeref)
    | Some s =>
        match get_last_buffer s with
        | None => ret (1, this, s)
        | Some _ =>
            do s' <- create_new_out_buffer s ;
            match get_last_buffer s' with
            | None => stuck (Fault NullDeref)
            | Some b => ret (0, with_buffer this (buffer this ++ [b]), s')
            end
        end
    end.

End Buffered_Socket.

(** ** std::map<std::string, NT_Buffered_Socket*> *)

(** The map is kept in key order, which is the order a range-for visits it
    in.  A value is a pointer to a port that only the map reaches, so the
    port itself stands for it and a write through the pointer is [update]. *)
Module StdMap.
Section ops.
Context {V : Type}.

Fixpoint emplace (k : string) (v : V) (m : list (string * V)) : list (string * V) :=
  match m with
  | [] => [(k, v)]
  | (k', v') :: m' =>
      if String.eqb k k' then m
      else if String.ltb k k' then (k, v) :: m
      else (k', v') :: emplace k v m'
  end.

Fixpoint find (k : string) (m : list (string * V)) : option V :=
  match m with
  | [] => None
  | (k', v') :: m' => if String.eqb k k' then Some v' else find k m'
  end.

Fixpoint update (k : string) (v : V) (m : list (string * V)) : list (string * V) :=
  match m with
  | [] => []
  | (k', v') :: m' =>
      if String.eqb k k' then (k', v) :: m' else (k', v') :: update k v m'
  end.

Definition keys (m : list (string * V)) : list string := map fst m.
End ops.
End StdMap.

(** ** aff3ct::module::Task, as far as the block uses it *)

(** The declared sockets with their direction ([get_socket_type]) and what
    [exec()] computes: from the records bound to the input sockets, the new
    content of the record bound to an output socket. *)
Record Task := {
  get_name : string;
  sockets : list (Socket * Socket_type);
  codelet : list (string * record) -> string -> record -> record
}.

(** ** Block.cpp *)

Module Block.

Record t := mk {
  name : string;
  n_threads : Z;
  task : Task;
  buffer_size : Z;
  buffered_sockets_in : list (string * Buffered_Socket.t);
  buffered_sockets_out : list (string * Buffered_Socket.t)
}.

Definition with_in (blk : t) (m : list (string * Buffered_Socket.t)) : t :=
  mk (name blk) (n_threads blk) (task blk) (buffer_size blk) m (buffered_sockets_out blk).

Definition with_out (blk : t) (m : list (string * Buffered_Socket.t)) : t :=
  mk (name blk) (n_threads blk) (task blk) (buffer_size blk) (buffered_sockets_in blk) m.

(** The chain of comparisons on [get_datatype_string()] in the
    constructor: which instantiation is built, if any. *)
Definition instantiation (d : string) : option scalar :=
  if String.eqb d "int8" then Some int8_t
  else if String.eqb d "int16" then Some int16_t
  else if String.eqb d "int32" then Some int32_t
  else if String.eqb d "int64" then Some int64_t
  else if String.eqb d "float32" then Some float
  else if String.eqb d "float64" then Some double
  else None.

(** The loop over the declared sockets in the constructor.  The constructor
    of [Buffered_Socket.cpp] takes one socket; the block hands it the sockets
    of the clones of the task, which carry the declaration of the task's own
    socket. *)
Fixpoint make_sockets (decl : list (Socket * Socket_type)) (buffer_size : Z)
    (ins outs : list (string * Buffered_Socket.t))
    : M (list (string * Buffered_Socket.t) * list (string * Buffered_Socket.t)) :=
  match decl with
  | [] => ret (ins, outs)
  | (s, ty) :: rest =>
      if Socket_type_eqb ty IN then
        match instantiation (datatype_string s) with
        | Some _ =>
            do bs <- Buffered_Socket.new s ty buffer_size ;
            make_sockets rest buffer_size (StdMap.emplace (sck_name s) bs ins) outs
        | None => make_sockets rest buffer_size ins outs
        end
      else
        match instantiation (datatype_string s) with
        | Some _ =>
            do bs <- Buffered_Socket.new s ty buffer_size ;
            make_sockets rest buffer_size ins (StdMap.emplace (sck_name s) bs outs)
        | None => make_sockets rest buffer_size ins outs
        end
  end.

(** [Block(task, buffer_size, n_threads)]; [threads(n_threads)] throws on
    a negative count. *)
Definition new (tsk : Task) (buffer_size : Z) (n_threads : Z) : M t :=
  if n_threads <? 0 then stuck (Fault Thrown)
  else
    do '(ins, outs) <- make_sockets (sockets tsk) buffer_size [] [] ;
    ret (mk (get_name tsk) n_threads tsk buffer_size ins outs).

(** [get_buffered_socket_in<T>(name)] and [get_buffered_socket_out<T>(name)];
    [None] is the null pointer. *)
Definition get_buffered_socket_in (blk : t) (T : scalar) (name : string)
    : option Buffered_Socket.t :=
  match StdMap.find name (buffered_sockets_in blk) with
  | Some bs =>
      if String.eqb (datatype_string (Buffered_Socket.socket bs)) (type_to_string T)
      then Some bs else None
  | None => None
  end.

Definition get_buffered_socket_out (blk : t) (T : scalar) (name : string)
    : option Buffered_Socket.t :=
  match StdMap.find name (buffered_sockets_out blk) with
  | Some bs =>
      if String.eqb (datatype_string (Buffered_Socket.socket bs)) (type_to_string T)
      then Some bs else None
  | None => None
  end.

(** [bind(start_sck_name, dest_block, dest_sck_name)]: the six lookups in
    the order of the source; after the last one the message is printed and
    1 is returned. *)
Fixpoint bind_as (Ts : list scalar) (this : t) (start_sck_name : string)
    (dest_block : t) (dest_sck_name : string) : M (Z * t) :=
  match Ts with
  | [] => ret (1, this)
  | T :: Ts' =>
      match get_buffered_socket_in this T start_sck_name with
      | Some sck =>
          do '(rc, sck') <-
             Buffered_Socket.bind sck (get_buffered_socket_out dest_block T dest_sck_name) ;
          ret (rc, with_in this (StdMap.update start_sck_name sck' (buffered_sockets_in this)))
      | None => bind_as Ts' this start_sck_name dest_block dest_sck_name
      end
  end.

Definition bind (this : t) (start_sck_name : string) (dest_block : t)
    (dest_sck_name : string) : M (Z * t) :=
  bind_as [int8_t; int16_t; int32_t; int64_t; float; double]
          this start_sck_name dest_block dest_sck_name.

(** A range-for over one of the two maps, the body acting on the port. *)
Fixpoint for_each (body : string -> Buffered_Socket.t -> M Buffered_Socket.t)
    (m : list (string * Buffered_Socket.t)) : M (list (string * Buffered_Socket.t)) :=
  match m with
  | [] => ret []
  | (k, bs) :: m' =>
      do bs' <- body k bs ;
      do m'' <- for_each body m' ;
      ret ((k, bs') :: m'')
  end.

(** [while (!*isDone && it.second->pop(task_id)) {};]
    The definitions of [pop] and [push] in [Buffered_Socket.cpp] take no
    argument: the worker index has no effect on them. *)
Fixpoint poll (env : Env) (fuel : nat) (k : string) (bs : Buffered_Socket.t)
    : M Buffered_Socket.t :=
  match fuel with
  | O => stuck Spin
  | S fuel' =>
      do flag <- read_isDone env ;
      if flag then ret bs
      else
        do '(rc, bs') <- Buffered_Socket.pop bs ;
        do _ <- emit (EvPop k rc) ;
        if rc =? 0 then ret bs' else poll env fuel' k bs'
  end.

(** [while (!*isDone && it.second->push(task_id)) {};] *)
Fixpoint deliver (env : Env) (fuel : nat) (n : nat) (k : string)
    (bs : Buffered_Socket.t) : M Buffered_Socket.t :=
  match n with
  | O => stuck Spin
  | S n' =>
      do flag <- read_isDone env ;
      if flag then ret bs
      else
        do '(rc, bs') <- Buffered_Socket.push env fuel bs ;
        do _ <- emit (EvPush k rc) ;
        if rc =? 0 then ret bs' else deliver env fuel n' k bs'
  end.

(** The record the task sees behind a port. *)
Definition staged (bs : Buffered_Socket.t) : record :=
  match dataptr (Buffered_Socket.socket bs) with
  | Some i => default [] (Buffered_Socket.socket_data bs !! i)
  | None => []
  end.

Definition store_staged (bs : Buffered_Socket.t) (r : record) : Buffered_Socket.t :=
  match dataptr (Buffered_Socket.socket bs) with
  | Some i =>
      Buffered_Socket.mk (Buffered_Socket.socket bs) (Buffered_Socket.socket_type bs)
        (Buffered_Socket.buffer_size bs) (<[i := r]> (Buffered_Socket.socket_data bs))
        (Buffered_Socket.buffer bs) (Buffered_Socket.pop_buffer_idx bs)
  | None => bs
  end.

(** [tasks[task_id]->exec()]: [tasks] holds [n_threads] clones. *)
Definition exec (task_id : Z) (blk : t) : M t :=
  if (0 <=? task_id) && (task_id <? n_threads blk) then
    do _ <- emit EvExec ;
    let inputs := map (fun '(k, bs) => (k, staged bs)) (buffered_sockets_in blk) in
    ret (with_out blk
           (map (fun '(k, bs) => (k, store_staged bs (codelet (task blk) inputs k (staged bs))))
                (buffered_sockets_out blk)))
  else stuck (Fault OutOfRange).

(** The main loop of [execute_task], bounded by [n] turns. *)
Fixpoint main_loop (env : Env) (fuel : nat) (n : nat) (task_id : Z) (blk : t) : M t :=
  match n with
  | O => stuck Spin
  | S n' =>
      do flag <- read_isDone env ;
      if flag then ret blk
      else
        do _ <- emit EvLoop ;
        do ins <- for_each (poll env fuel) (buffered_sockets_in blk) ;
        do flag <- read_isDone env ;
        if flag then ret (with_in blk ins)
        else
          do blk' <- exec task_id (with_in blk ins) ;
          do outs <- for_each (deliver env fuel fuel) (buffered_sockets_out blk') ;
          main_loop env fuel n' task_id (with_out blk' outs)
  end.

Definition stop_port (k : string) (bs : Buffered_Socket.t) : M Buffered_Socket.t :=
  do _ <- Buffered_Socket.stop bs ;
  do _ <- emit (EvStop k) ;
  ret bs.

(** [execute_task(task_id, isDone)]. *)
Definition execute_task (env : Env) (fuel : nat) (task_id : Z) (blk : t) : M t :=
  do blk' <- main_loop env fuel fuel task_id blk ;
  do _ <- for_each stop_port (buffered_sockets_out blk') ;
  do _ <- for_each stop_port (buffered_sockets_in blk') ;
  ret blk'.

(** [reset()]. *)
Definition reset (blk : t) : M unit :=
  do _ <- for_each (fun _ bs => do _ <- Buffered_Socket.reset bs ; ret bs)
                   (buffered_sockets_in blk) ;
  do _ <- for_each (fun _ bs => do _ <- Buffered_Socket.reset bs ; ret bs)
                   (buffered_sockets_out blk) ;
  ret tt.

End Block.

(** ** One output port feeding two input ports *)

Module Fanout.

(** The producer's port, the two consumers' ports, and what the task behind
    each consumer has been handed so far. *)
Record world := {
  producer : Buffered_Socket.t;
  first : Buffered_Socket.t;
  second : Buffered_Socket.t;
  seen_first : list record;
  seen_second : list record
}.

(** The three ports on one socket declaration, the first consumer attached
    with [bind], the second with [bind_cpy]. *)
Definition wire (s : Socket) (buffer_size : Z) : M (Z * Z * world) :=
  do out <- Buffered_Socket.new s OUT buffer_size ;
  do in1 <- Buffered_Socket.new s IN buffer_size ;
  do in2 <- Buffered_Socket.new s IN buffer_size ;
  do '(rc1, in1') <- Buffered_Socket.bind in1 (Some out) ;
  do '(rc2, in2', out') <- Buffered_Socket.bind_cpy in2 (Some out) ;
  ret (rc1, rc2, {| producer := out'; first := in1'; second := in2';
                    seen_first := []; seen_second := [] |}).

(** The producer's task writes a record and the port pushes it; a consumer
    pops and, when [pop] answers 0, its task reads the record. *)
Inductive action := Produce (r : record) | DrainFirst | DrainSecond.

Definition act (env : Env) (fuel : nat) (w : world) (a : action) : M world :=
  match a with
  | Produce r =>
      do '(rc, out) <- Buffered_Socket.push env fuel (Block.store_staged (producer w) r) ;
      ret {| producer := out; first := first w; second := second w;
             seen_first := seen_first w; seen_second := seen_second w |}
  | DrainFirst =>
      do '(rc, port) <- Buffered_Socket.pop (first w) ;
      ret {| producer := producer w; first := port; second := second w;
             seen_first := if rc =? 0 then seen_first w ++ [Block.staged port]
                           else seen_first w;
             seen_second := seen_second w |}
  | DrainSecond =>
      do '(rc, port) <- Buffered_Socket.pop (second w) ;
      ret {| producer := producer w; first := first w; second := port;
             seen_first := seen_first w;
             seen_second := if rc =? 0 then seen_second w ++ [Block.staged port]
                            else seen_second w |}
  end.

Fixpoint run (env : Env) (fuel : nat) (acts : list action) (w : world) : M world :=
  match acts with
  | [] => ret w
  | a :: acts' => do w' <- act env fuel w a ; run env fuel acts' w'
  end.

Fixpoint produced (acts : list action) : list record :=
  match acts with
  | [] => []
  | Produce r :: acts' => r :: produced acts'
  | _ :: acts' => produced acts'
  end.

(** The producer runs only while both queues have room: [n1] and [n2]
    records are waiting for the first and the second consumer. *)
Fixpoint within_capacity (capacity n1 n2 : nat) (acts : list action) : bool :=
  match acts with
  | [] => true
  | Produce _ :: acts' =>
      (n1 <? capacity)%nat && (n2 <? capacity)%nat &&
      within_capacity capacity (S n1) (S n2) acts'
  | DrainFirst :: acts' => within_capacity capacity (pred n1) n2 acts'
  | DrainSecond :: acts' => within_capacity capacity n1 (pred n2) acts'
  end.

(** The task writes records of the width of the socket. *)
Definition of_width (n : nat) (a : action) : Prop :=
  match a with
  | Produce r => length r = n
  | _ => True
  end.

(** A queue of the fan-out: well formed, of the given capacity, holding
    [n] records, which together with the records already seen by its
    consumer make up what was produced. *)
Definition queue_ok (capacity : nat) (st : Store) (b n : nat)
    (seen produced : list record) : Prop :=
  exists cb, bufs st !! b = Some cb /\ Circular_Buffer.wf cb /\
             Circular_Buffer.occupied cb = n /\
             Circular_Buffer.capacity cb = capacity /\
             seen ++ Circular_Buffer.contents cb = produced.

Definition consumer_ok (port : Buffered_Socket.t) (b : nat) : Prop :=
  Buffered_Socket.buffer port = [b] /\
  exists r, Buffered_Socket.socket_data port = [r].

Definition producer_ok (width b0 b1 : nat) (port : Buffered_Socket.t) : Prop :=
  Buffered_Socket.buffer port = [b0; b1] /\
  dataptr (Buffered_Socket.socket port) = Some 0%nat /\
  exists r r', Buffered_Socket.socket_data port = [r; r'] /\
               length r = width /\ length r' = width.

Definition fanout_ok (width capacity b0 b1 : nat) (w : world) (st : Store)
    (n1 n2 : nat) (produced : list record) : Prop :=
  producer_ok width b0 b1 (producer w) /\
  consumer_ok (first w) b0 /\ consumer_ok (second w) b1 /\
  queue_ok capacity st b0 n1 (seen_first w) produced /\
  queue_ok capacity st b1 n2 (seen_second w) produced.

End Fanout.

(** ** Reading a trace of [execute_task] *)

(** The ports whose [pop] returned 0, in order. *)
Fixpoint polled (evs : list event) : list string :=
  match evs with
  | [] => []
  | EvPop k rc :: evs' => if rc =? 0 then k :: polled evs' else polled evs'
  | _ :: evs' => polled evs'
  end.

(** What polling the input ports leaves in the trace. *)
Definition polling_event (e : event) : Prop :=
  match e with
  | EvPop _ _ | EvTake _ _ => True
  | _ => False
  end.

Definition not_exec (e : event) : Prop := e <> EvExec.

(** The stop flag has been read as set before the instant of [st]. *)
Definition flag_seen (env : Env) (st : Store) : Prop :=
  exists t, (t < now st)%nat /\ isDone env t = true.

(** [m] adds events that satisfy [P] to the trace, whatever its outcome, and
    time does not go back. *)
Definition emits_only (P : event -> Prop) {A} (m : M A) : Prop :=
  forall st, exists evs,
    trace (final (m st)) = trace st ++ evs /\ Forall P evs /\
    (now st <= now (final (m st)))%nat.

(** The events of a run in which the task is only called at the end of a
    turn of the main loop that has had every port of [names] popped. *)
Inductive exec_guarded (names : list string) : list event -> Prop :=
| eg_idle evs :
    Forall not_exec evs -> exec_guarded names evs
| eg_turn before polls rest :
    Forall not_exec before ->
    Forall polling_event polls ->
    polled polls = names ->
    exec_guarded names rest ->
    exec_guarded names (before ++ EvLoop :: polls ++ EvExec :: rest).

(** ** The blocks of main.cpp *)

(** The tasks of [main.cpp], with K = 16 and N = 32, and the sockets that
    aff3ct declares for them. *)
Definition declare (name : string) (n : nat) (d : string) : Socket :=
  {| sck_name := name; n_elmts := n; datatype_string := d; dataptr := None |}.

Definition keep : list (string * record) -> string -> record -> record :=
  fun _ _ r => r.

Definition generate : Task :=
  {| get_name := "generate";
     sockets := [(declare "U_K" 16 "int32", OUT)];
     codelet := keep |}.

Definition encode : Task :=
  {| get_name := "encode";
     sockets := [(declare "U_K" 16 "int32", IN); (declare "X_N" 32 "int32", OUT)];
     codelet := keep |}.

Definition decode_siho : Task :=
  {| get_name := "decode_siho";
     sockets := [(declare "Y_N" 32 "float32", IN); (declare "V_K" 16 "int32", OUT)];
     codelet := keep |}.

Definition check_errors : Task :=
  {| get_name := "check_errors";
     sockets := [(declare "U" 16 "int32", IN); (declare "V" 16 "int32", IN)];
     codelet := keep |}.

Definition empty_store : Store := {| bufs := []; now := 0; trace := [] |}.

(** The task of the encoder with an output socket of a datatype outside
    the six. *)
Definition encode_uint8 : Task :=
  {| get_name := "encode";
     sockets := [(declare "U_K" 16 "int32", IN); (declare "X_N" 32 "uint8", OUT)];
     codelet := keep |}.

Definition modulate : Task :=
  {| get_name := "modulate";
     sockets := [(declare "X_N1" 32 "int32", IN); (declare "X_N2" 32 "float32", OUT)];
     codelet := keep |}.


(** A stop flag that is set at instant 6, and nobody at the other end of the
    buffers. *)
Definition late_stop : Env :=
  {| isDone := fun t => (6 <=? t)%nat; peers := fun _ h => h |}.

(** ** Diagnostics and invariants *)

(** Modelled from the spec: [get_cur_buffer_nbr()], declared in
    [Circular_Buffer.hpp]: the current occupancy of the buffer. *)
Definition get_cur_buffer_nbr (cb : Circular_Buffer.t) : nat :=
  Circular_Buffer.occupied cb.

(** One line of [print_socket_data()], as sent to [std::cout]. *)
Definition socket_data_line (name : string) (j nbr : nat) : string :=
  name +:+ "(" +:+ pretty j +:+ "): Buffer Size : [ " +:+ pretty nbr +:+ "]"
       +:+ String (Ascii.ascii_of_nat 10) "".

(** The loop of [print_socket_data()], from [j] on, with [count] turns
    left: [j] runs over the staging records and indexes the buffers. *)
Fixpoint print_lines (name : string) (bf : list nat) (j count : nat) : M (list string) :=
  match count with
  | O => ret []
  | S count' =>
      do b <- at_index bf j ;
      do cb <- get_buf b ;
      do rest <- print_lines name bf (S j) count' ;
      ret (socket_data_line name j (get_cur_buffer_nbr cb) :: rest)
  end.

(** [print_socket_data()]; [name] is the member [name] that the port gets
    from its base class. *)
Definition print_socket_data (name : string) (bs : Buffered_Socket.t) : M (list string) :=
  print_lines name (Buffered_Socket.buffer bs) 0
              (length (Buffered_Socket.socket_data bs)).

(** Every buffer of the store keeps its bookkeeping. *)
Definition store_ok (st : Store) : Prop := Forall Circular_Buffer.wf (bufs st).

(** [m] keeps [I], whatever its outcome. *)
Definition keeps (I : Store -> Prop) {A} (m : M A) : Prop :=
  forall st, I st -> I (final (m st)).

(** The threads at the other end of the buffers keep their bookkeeping. *)
Definition peers_ok (env : Env) : Prop :=
  forall t h, Forall Circular_Buffer.wf h -> Forall Circular_Buffer.wf (peers env t h).

(** The declared sockets that the constructor of the block has an
    instantiation for. *)
Definition supported (d : Socket * Socket_type) : bool :=
  match Block.instantiation (datatype_string (fst d)) with
  | Some _ => true
  | None => false
  end.

(** The lookup by kind on the side of a direction: the input map for [IN],
    the output map otherwise. *)
Definition get_buffered_socket (ty : Socket_type) (blk : Block.t) (T : scalar)
    (name : string) : option Buffered_Socket.t :=
  if Socket_type_eqb ty IN then Block.get_buffered_socket_in blk T name
  else Block.get_buffered_socket_out blk T name.

(** Every buffer of every port of a map satisfies [P] in the store. *)
Definition all_buffers (P : Circular_Buffer.t -> Prop) (st : Store)
    (m : list (string * Buffered_Socket.t)) : Prop :=
  forall k bs b, In (k, bs) m -> In b (Buffered_Socket.buffer bs) ->
                 exists cb, bufs st !! b = Some cb /\ P cb.

(** The names of the declared sockets. *)
Definition declared_names (decl : list (Socket * Socket_type)) : list string :=
  map (fun d => sck_name (fst d)) decl.

(** [bs] is the port that the constructors build for the declaration [s]
    with direction [ty]: one zero staging record of the socket's width, the
    socket bound to it, no buffer for an input port and one buffer of the
    store, as the buffer constructor made it, otherwise. *)
Definition port_built (s : Socket) (ty : Socket_type) (capacity : Z) (st : Store)
    (bs : Buffered_Socket.t) : Prop :=
  Buffered_Socket.socket bs = Socket_bind s 0 /\
  Buffered_Socket.socket_type bs = ty /\
  Buffered_Socket.buffer_size bs = capacity /\
  Buffered_Socket.socket_data bs = [zero_record (n_elmts s)] /\
  if Socket_type_eqb ty IN then Buffered_Socket.buffer bs = []
  else exists b cb, Buffered_Socket.buffer bs = [b] /\ bufs st !! b = Some cb /\
                    Circular_Buffer.new capacity (n_elmts s) = Some cb.

(** A result that is not a loop still running. *)
Definition settled {A} (r : result A) : Prop :=
  match r with
  | Halt Spin _ => False
  | _ => True
  end.

(** From [st] to [st'] every pointer stays valid and the buffers that
    satisfy [P] still do. *)
Definition carried (P : Circular_Buffer.t -> Prop) (st st' : Store) : Prop :=
  forall b cb, bufs st !! b = Some cb ->
               exists cb', bufs st' !! b = Some cb' /\ (P cb -> P cb').

(** The occupancy that [print_socket_data] reports for position [j]. *)
Definition reported (st : Store) (bf : list nat) (j : nat) : nat :=
  match bf !! j with
  | Some b => match bufs st !! b with
              | Some cb => get_cur_buffer_nbr cb
              | None => 0%nat
              end
  | None => 0%nat
  end.

(** A stop flag that is never set, and nobody at the other end. *)
Definition never_stop : Env :=
  {| isDone := fun _ => false; peers := fun _ h => h |}.

(** ** Waiting for room *)

(** The store [k] instants later, the running thread having written
    nothing in between. *)
Definition waited (env : Env) (k : nat) (st : Store) : Store :=
  Nat.iter k (tick env) st.

(** Buffer [b] is found full at each of the first [k] instants from [st]. *)
Definition refused_until (env : Env) (b k : nat) (st : Store) : Prop :=
  forall j, (j < k)%nat ->
    exists cb, bufs (waited env j st) !! b = Some cb /\
               Circular_Buffer.is_full cb = true.

(** The store in which buffer [b] has become [cb'] by taking [r]. *)
Definition accept_in (b : nat) (r : record) (cb' : Circular_Buffer.t) (st : Store) : Store :=
  {| bufs := <[b := cb']> (bufs st); now := now st; trace := trace st ++ [EvAccept b r] |}.

(** What the specification asks of [push] for the owned buffers, one after
    the other: the buffer is found full some number [k] of times, fewer than
    the bound, the other threads running in between; at the next instant it
    has room and takes the record: one more slot is occupied and, the
    bookkeeping of the buffer being intact, its queue is the old queue
    followed by the record. *)
Inductive delivered (env : Env) (fuel : nat) (r : record)
    : list nat -> Store -> Store -> Prop :=
| delivered_nil st : delivered env fuel r [] st st
| delivered_cons b rest st st' k cb cb' :
    (k < fuel)%nat ->
    refused_until env b k st ->
    bufs (waited env k st) !! b = Some cb ->
    Circular_Buffer.is_full cb = false ->
    Circular_Buffer.try_push cb r = (true, cb') ->
    Circular_Buffer.occupied cb' = S (Circular_Buffer.occupied cb) ->
    (Circular_Buffer.wf cb ->
     Circular_Buffer.contents cb' = Circular_Buffer.contents cb ++ [r]) ->
    delivered env fuel r rest (accept_in b r cb' (waited env k st)) st' ->
    delivered env fuel r (b :: rest) st st'.

(** The oldest record of buffer [b] is taken out by the thread at its other
    end. *)
Definition drained (b : nat) (h : list Circular_Buffer.t) : list Circular_Buffer.t :=
  match h !! b with
  | Some cb => <[b := snd (Circular_Buffer.try_pop cb)]> h
  | None => h
  end.

(** A consumer that takes one record out of buffer 0 at instant 1 and
    nothing else; the flag is never set. *)
Definition slow_consumer : Env :=
  {| isDone := fun _ => false;
     peers := fun t h => if (t =? 1)%nat then drained 0 h else h |}.

(** A stop flag that is set at instant 1 and clear again afterwards. *)
Definition flicker : Env :=
  {| isDone := fun t => (t =? 1)%nat; peers := fun _ h => h |}.

(** * Arithmetic on cursors *)

Lemma cursor_offset_inj (c t k1 k2 : nat) :
  (k1 < c)%nat -> (k2 < c)%nat ->
  ((t + k1) mod c = (t + k2) mod c)%nat -> k1 = k2.
Proof.
  intros H1 H2 E.
  assert (Hc : c <> 0%nat) by lia.
  pose proof (Nat.div_mod_eq (t + k1) c) as D1.
  pose proof (Nat.div_mod_eq (t + k2) c) as D2.
  rewrite E in D1.
  set (q1 := ((t + k1) / c)%nat) in *.
  set (q2 := ((t + k2) / c)%nat) in *.
  set (m := ((t + k2) mod c)%nat) in *.
  assert (q1 = q2) by nia.
  subst q1. nia.
Qed.

Lemma cursor_step (c t k : nat) :
  (((t + 1) mod c + k) mod c = (t + S k) mod c)%nat.
Proof.
  destruct c as [|c]; [simpl; lia|].
  rewrite Nat.Div0.add_mod_idemp_l. f_equal. lia.
Qed.

(** * Properties of the circular buffer *)

Section Circular_Buffer_facts.
Import Circular_Buffer.

Lemma new_wf bs n cb : new bs n = Some cb -> wf cb.
Proof.
  unfold new. destruct (Z.ltb_spec bs 1); [discriminate|].
  intros [= <-]. split; unfold capacity; simpl; rewrite ?length_replicate; try lia.
  symmetry. apply Nat.mod_small. lia.
Qed.

Lemma new_fresh bs n cb :
  new bs n = Some cb ->
  occupied cb = 0%nat /\ stopped cb = false /\ capacity cb = Z.to_nat bs /\ 1 <= bs.
Proof.
  unfold new. destruct (Z.ltb_spec bs 1); [discriminate|].
  intros [= <-]. unfold capacity. simpl. rewrite length_replicate. auto.
Qed.

Lemma try_push_full cb r : is_full cb = true -> try_push cb r = (false, cb).
Proof. unfold try_push. now intros ->. Qed.

Lemma try_pop_empty cb : is_empty cb = true -> try_pop cb = (None, cb).
Proof. unfold try_pop. now intros ->. Qed.

Lemma length_contents cb : length (contents cb) = occupied cb.
Proof. unfold contents. now rewrite length_map, length_seq. Qed.

Lemma try_push_accept cb r :
  wf cb -> is_full cb = false ->
  exists cb', try_push cb r = (true, cb') /\ wf cb' /\
              contents cb' = contents cb ++ [r] /\
              capacity cb' = capacity cb /\ stopped cb' = stopped cb.
Proof.
  intros [Hc Ho Ht Hh] Hf. unfold try_push. rewrite Hf.
  apply Nat.eqb_neq in Hf. unfold capacity in *.
  eexists. split; [reflexivity|].
  split; [|split; [|split]]; try done.
  - split; unfold capacity; simpl; rewrite length_insert; try lia.
    rewrite Hh, Nat.Div0.add_mod_idemp_l. f_equal. lia.
  - unfold contents. simpl occupied.
    rewrite seq_S, map_app. simpl. f_equal.
    + apply map_ext_in. intros k Hk. apply in_seq in Hk.
      unfold slot_at, capacity. simpl. rewrite length_insert.
      rewrite list_lookup_insert_ne; [done|].
      rewrite Hh. intros E. apply cursor_offset_inj in E; lia.
    + unfold slot_at, capacity. simpl. rewrite length_insert, <- Hh.
      rewrite list_lookup_insert_eq; [done|].
      rewrite Hh. apply Nat.mod_upper_bound. lia.
  - unfold capacity. simpl. apply length_insert.
Qed.

Lemma try_pop_deliver cb :
  wf cb -> is_empty cb = false ->
  exists r cb', try_pop cb = (Some r, cb') /\ wf cb' /\
                contents cb = r :: contents cb' /\
                capacity cb' = capacity cb /\ stopped cb' = stopped cb.
Proof.
  intros [Hc Ho Ht Hh] He. unfold try_pop. rewrite He.
  apply Nat.eqb_neq in He.
  destruct (slots cb !! tail cb) as [r|] eqn:Hr.
  2:{ apply lookup_ge_None in Hr. unfold capacity in Ht. lia. }
  exists r. eexists. split; [reflexivity|].
  split; [|split; [|split]]; try done.
  - split; unfold capacity in *; simpl; try lia.
    + apply Nat.mod_upper_bound. lia.
    + rewrite Hh, Nat.Div0.add_mod_idemp_l. f_equal. lia.
  - unfold contents. simpl occupied.
    destruct (occupied cb) as [|n] eqn:Hn; [lia|].
    simpl pred. rewrite <- cons_seq. simpl map. f_equal.
    + unfold slot_at. rewrite Nat.add_0_r, Nat.mod_small by done.
      now rewrite Hr.
    + rewrite <- seq_shift, map_map. apply map_ext. intros k.
      unfold slot_at, capacity. simpl. now rewrite cursor_step.
Qed.

Lemma step_invariant h o :
  wf (buf h) -> pushed h = popped h ++ contents (buf h) ->
  wf (buf (step h o)) /\
  pushed (step h o) = popped (step h o) ++ contents (buf (step h o)) /\
  stopped (buf (step h o)) = stopped (buf h).
Proof.
  intros Hwf Hq. destruct o as [r|]; unfold step.
  - destruct (is_full (buf h)) eqn:Hf.
    + rewrite try_push_full by done. simpl. auto.
    + destruct (try_push_accept (buf h) r Hwf Hf) as (cb' & -> & Hwf' & Hc & _ & Hs).
      simpl. rewrite Hc, Hq, app_assoc. auto.
  - destruct (is_empty (buf h)) eqn:He.
    + rewrite try_pop_empty by done. simpl. auto.
    + destruct (try_pop_deliver (buf h) Hwf He) as (r & cb' & -> & Hwf' & Hc & _ & Hs).
      simpl. rewrite Hq, Hc, <- app_assoc. auto.
Qed.

Lemma run_invariant ops h :
  wf (buf h) -> pushed h = popped h ++ contents (buf h) ->
  let h' := fold_left step ops h in
  wf (buf h') /\ pushed h' = popped h' ++ contents (buf h') /\
  stopped (buf h') = stopped (buf h).
Proof.
  revert h. induction ops as [|o ops IH]; intros h Hwf Hq; simpl; [auto|].
  destruct (step_invariant h o Hwf Hq) as (Hwf' & Hq' & Hs').
  destruct (IH (step h o) Hwf' Hq') as (? & ? & ?).
  split; [done|]. split; [done|congruence].
Qed.

(** C1. Whatever pushes and pops one producer and one consumer make on a
    buffer that is not stopped, the records received are, in order, the
    records accepted: at every moment the accepted sequence is the received
    sequence followed by the records still waiting in the buffer, so none is
    delivered twice and none is dropped, and a drained buffer has delivered
    the whole sequence. *)
Theorem fifo_order (buffer_size : Z) (n_elt : nat) (cb0 : t) (ops : list op) :
  new buffer_size n_elt = Some cb0 ->
  let h := run cb0 ops in
  stopped (buf h) = false /\
  pushed h = popped h ++ contents (buf h) /\
  length (contents (buf h)) = occupied (buf h) /\
  (occupied (buf h) = 0%nat -> popped h = pushed h).
Proof.
  intros Hnew h.
  destruct (new_fresh _ _ _ Hnew) as (Ho & Hs & _).
  destruct (run_invariant ops {| buf := cb0; pushed := []; popped := [] |})
    as (Hwf & Hq & Hst).
  - simpl. eapply new_wf; eauto.
  - simpl. unfold contents. now rewrite Ho.
  - fold (run cb0 ops) in *. fold h in Hwf, Hq, Hst.
    simpl in Hst. repeat split.
    + congruence.
    + done.
    + apply length_contents.
    + intros Hz. rewrite Hq. unfold contents. rewrite Hz. simpl.
      now rewrite app_nil_r.
Qed.

Lemma fifo_order_witness :
  let h := run (mk [[0]; [0]] 0 0 0 false)
               [Push [1]; Push [2]; Push [3]; Pop; Push [4]; Pop; Pop] in
  stopped (buf h) = false /\
  pushed h = popped h ++ contents (buf h) /\
  length (contents (buf h)) = occupied (buf h) /\
  (occupied (buf h) = 0%nat -> popped h = pushed h).
Proof. apply (fifo_order 2 1). reflexivity. Defined.

End Circular_Buffer_facts.

(** * Properties of the buffered port *)

Section Buffered_Socket_facts.
Import Buffered_Socket.

Lemma store_eta st : {| bufs := bufs st; now := now st; trace := trace st |} = st.
Proof. now destruct st. Qed.

Lemma pop_empty cb out :
  Circular_Buffer.is_empty cb = true -> Circular_Buffer.pop cb out = (1, out, cb).
Proof.
  intros H. unfold Circular_Buffer.pop. now rewrite try_pop_empty.
Qed.

Lemma pop_cases (bs : t) (st : Store) b more cb r0 others :
  buffer bs = b :: more ->
  socket_data bs = r0 :: others ->
  bufs st !! b = Some cb ->
  Circular_Buffer.wf cb ->
  Circular_Buffer.is_empty cb = true /\ pop bs st = Done (1, bs) st \/
  exists r cb',
    Circular_Buffer.is_empty cb = false /\
    Circular_Buffer.wf cb' /\
    Circular_Buffer.contents cb = r :: Circular_Buffer.contents cb' /\
    Circular_Buffer.capacity cb' = Circular_Buffer.capacity cb /\
    pop bs st = Done (0, with_data bs (r :: others) 0)
                  {| bufs := <[b := cb']> (bufs st); now := now st;
                     trace := trace st ++ [EvTake b r] |}.
Proof.
  intros Hb Hd Hcb Hwf.
  destruct (Circular_Buffer.is_empty cb) eqn:He; [left|right].
  - split; [done|]. unfold pop, bindM, at_index. rewrite Hb, Hd. simpl.
    unfold get_buf. rewrite Hcb. rewrite pop_empty by done. simpl.
    rewrite list_insert_id by done. now rewrite store_eta.
  - destruct (try_pop_deliver cb Hwf He) as (r & cb' & Hp & Hwf' & Hc & Hcap & _).
    exists r, cb'. repeat split; try done; try apply Hwf'.
    unfold pop, bindM, at_index. rewrite Hb, Hd. simpl.
    unfold get_buf. rewrite Hcb. unfold Circular_Buffer.pop. rewrite Hp.
    reflexivity.
Qed.

(** C6. On a bound port, [pop] answers 1 (retry) and changes nothing when
    the buffer holds no record; otherwise it takes the oldest record out
    of the buffer into staging record 0, binds the task's socket to that
    record and answers 0 (done). *)
Theorem pop_oldest_into_staging (bs : t) (st : Store) (b : nat) (more : list nat)
    (cb : Circular_Buffer.t) (r0 : record) (others : list record) :
  buffer bs = b :: more ->
  socket_data bs = r0 :: others ->
  bufs st !! b = Some cb ->
  Circular_Buffer.wf cb ->
  match Circular_Buffer.contents cb with
  | [] => pop bs st = Done (1, bs) st
  | r :: waiting =>
      exists cb' bs',
        pop bs st = Done (0, bs')
                      {| bufs := <[b := cb']> (bufs st); now := now st;
                         trace := trace st ++ [EvTake b r] |} /\
        Circular_Buffer.contents cb' = waiting /\
        socket_data bs' = r :: others /\
        dataptr (socket bs') = Some 0%nat /\
        Block.staged bs' = r /\
        buffer bs' = buffer bs
  end.
Proof.
  intros Hb Hd Hcb Hwf.
  destruct (pop_cases bs st b more cb r0 others Hb Hd Hcb Hwf)
    as [[He Hpop]|(r & cb' & He & _ & Hc & _ & Hpop)].
  - assert (Hc : Circular_Buffer.contents cb = []).
    { unfold Circular_Buffer.contents. apply Nat.eqb_eq in He. now rewrite He. }
    now rewrite Hc.
  - rewrite Hc. exists cb'. eexists. split; [exact Hpop|].
    unfold Block.staged. simpl. auto.
Qed.

Lemma pop_oldest_into_staging_witness :
  let cb := Circular_Buffer.mk [[7; 8]; [0; 0]] 1 0 1 false in
  let bs := mk (Build_Socket "U_K" 2 "int32" (Some 0%nat)) IN 2 [[0; 0]] [0%nat] 0 in
  let st := {| bufs := [cb]; now := 0; trace := [] |} in
  exists cb' bs',
    pop bs st = Done (0, bs')
                  {| bufs := <[0%nat := cb']> (bufs st); now := now st;
                     trace := trace st ++ [EvTake 0 [7; 8]] |} /\
    Circular_Buffer.contents cb' = [] /\
    socket_data bs' = [[7; 8]] /\
    dataptr (socket bs') = Some 0%nat /\
    Block.staged bs' = [7; 8] /\
    buffer bs' = buffer bs.
Proof.
  intros cb bs st.
  apply (pop_oldest_into_staging bs st 0%nat [] cb [0; 0] []); try reflexivity.
  split; unfold Circular_Buffer.capacity; simpl; first [lia | reflexivity].
Defined.

(** C7. For a consumer's input port [this] and any port [s] on the
    producer's side, [bind] and [bind_cpy] answer 1 exactly when [s] has no
    buffer, and then nothing is changed. Otherwise [bind] answers 0 and the
    consumer's vector of buffers has gained the last buffer of the producer,
    which is one of the producer's buffers; and [bind_cpy], on an output or
    in-out producer with a capacity the buffer constructor takes, answers 0,
    the producer has gained a new buffer with a staging record, and the
    consumer's vector of buffers has gained that buffer. No other member of
    the consumer's port changes. *)
Theorem bind_fails_iff_no_buffer (this s : t) (st : Store) :
  socket_type this = IN ->
  (exists rc this',
     bind this (Some s) st = Done (rc, this') st /\
     (rc = 1 <-> buffer s = []) /\
     (rc = 1 -> this' = this) /\
     (rc <> 1 ->
        rc = 0 /\
        exists b, last (buffer s) = Some b /\ b ∈ buffer s /\
                  buffer this' = buffer this ++ [b] /\
                  socket this' = socket this /\
                  socket_type this' = socket_type this /\
                  buffer_size this' = buffer_size this /\
                  socket_data this' = socket_data this /\
                  pop_buffer_idx this' = pop_buffer_idx this)) /\
  (forall rc this' s' st',
     bind_cpy this (Some s) st = Done (rc, this', s') st' ->
     (rc = 1 <-> buffer s = []) /\ (rc = 1 -> this' = this /\ s' = s /\ st' = st)) /\
  (buffer s = [] -> bind_cpy this (Some s) st = Done (1, this, s) st) /\
  (buffer s <> [] -> socket_type s <> IN -> 1 <= buffer_size s ->
     exists this' s' cb,
       let b' := length (bufs st) in
       bind_cpy this (Some s) st =
         Done (0, this', s')
              {| bufs := bufs st ++ [cb]; now := now st; trace := trace st |} /\
       Circular_Buffer.new (buffer_size s) (n_elmts (socket s)) = Some cb /\
       (bufs st ++ [cb]) !! b' = Some cb /\
       buffer s' = buffer s ++ [b'] /\
       socket_data s' = socket_data s ++ [zero_record (n_elmts (socket s))] /\
       buffer this' = buffer this ++ [b'] /\
       socket this' = socket this /\
       socket_type this' = socket_type this /\
       buffer_size this' = buffer_size this /\
       socket_data this' = socket_data this /\
       pop_buffer_idx this' = pop_buffer_idx this).
Proof.
  intros Hthis.
  assert (Hin : negb (Socket_type_eqb (socket_type this) IN) = false) by now rewrite Hthis.
  split; [|split; [|split]].
  - unfold bind, get_last_buffer.
    destruct (last (buffer s)) as [b|] eqn:Hl.
    + exists 0. eexists. split; [reflexivity|].
      assert (Hne : buffer s <> []) by (intros E; rewrite E in Hl; discriminate).
      split; [split; [discriminate|done]|]. split; [discriminate|].
      intros _. split; [reflexivity|]. exists b. simpl.
      split; [reflexivity|]. split; [|auto 10].
      rewrite last_lookup in Hl. eapply list_elem_of_lookup_2; eauto.
    + apply last_None in Hl. exists 1. eexists. split; [reflexivity|].
      split; [done|]. split; [done|]. intros H. now contradiction H.
  - intros rc this' s' st'. unfold bind_cpy, get_last_buffer. rewrite Hin.
    destruct (last (buffer s)) as [b|] eqn:Hl.
    + assert (Hne : buffer s <> []) by (intros E; rewrite E in Hl; discriminate).
      unfold bindM. destruct (create_new_out_buffer s st) as [s1 st1|]; [|discriminate].
      destruct (last (buffer s1)); [|discriminate].
      intros [= <- <- <- <-]. split; [split; [discriminate|done]|discriminate].
    + apply last_None in Hl. intros [= <- <- <- <-]. split; [split|]; auto.
  - intros Hnil. unfold bind_cpy, get_last_buffer. now rewrite Hin, Hnil.
  - intros Hne Hs Hsize.
    assert (Hty : Socket_type_eqb (socket_type s) IN = false).
    { destruct (socket_type s); simpl; congruence. }
    destruct (last (buffer s)) as [b|] eqn:Hl.
    2:{ apply last_None in Hl. contradiction. }
    destruct (Circular_Buffer.new (buffer_size s) (n_elmts (socket s))) as [cb|] eqn:Hnew.
    2:{ unfold Circular_Buffer.new in Hnew.
        destruct (Z.ltb_spec (buffer_size s) 1); [lia|discriminate]. }
    eexists. eexists. exists cb.
    unfold bind_cpy, create_new_out_buffer, bindM, new_buf, get_last_buffer.
    rewrite Hin, Hl, Hty, Hnew. simpl. rewrite last_snoc.
    split; [reflexivity|]. simpl.
    split; [reflexivity|]. split; [apply list_lookup_middle; reflexivity|]. auto 10.
Qed.

Lemma bind_fails_iff_no_buffer_witness :
  let this := mk (Build_Socket "U_K" 2 "int32" (Some 0%nat)) IN 8 [[0; 0]] [] 0 in
  let s := mk (Build_Socket "U_K" 2 "int32" (Some 0%nat)) OUT 8 [[0; 0]] [0%nat] 0 in
  let unbound := mk (Build_Socket "V_K" 2 "int32" (Some 0%nat)) IN 8 [[0; 0]] [] 0 in
  let st := {| bufs := [Circular_Buffer.mk (replicate 8 [0; 0]) 0 0 0 false];
               now := 0; trace := [] |} in
  (exists rc this',
     bind this (Some unbound) st = Done (rc, this') st /\ rc = 1 /\ this' = this) /\
  bind_cpy this (Some unbound) st = Done (1, this, unbound) st /\
  (exists rc this',
     bind this (Some s) st = Done (rc, this') st /\ rc = 0 /\ buffer this' = [0%nat]) /\
  (exists this' s' cb,
     bind_cpy this (Some s) st =
       Done (0, this', s')
            {| bufs := bufs st ++ [cb]; now := now st; trace := trace st |} /\
     buffer s' = [0%nat; 1%nat] /\
     socket_data s' = [[0; 0]; [0; 0]] /\
     buffer this' = [1%nat]).
Proof.
  intros this s unbound st.
  destruct (bind_fails_iff_no_buffer this unbound st eq_refl)
    as ((rc1 & t1 & Hb1 & Hiff1 & Hsame1 & _) & _ & Hcpy1 & _).
  destruct (bind_fails_iff_no_buffer this s st eq_refl)
    as ((rc2 & t2 & Hb2 & Hiff2 & _ & Hok2) & _ & _ & Hcpy2).
  assert (Hrc1 : rc1 = 1) by (apply Hiff1; reflexivity).
  assert (Hrc2 : rc2 <> 1) by (intros E; apply Hiff2 in E; discriminate E).
  destruct (Hok2 Hrc2) as (Hz & b & Hl & _ & Hbuf & _).
  injection Hl as <-.
  destruct Hcpy2 as (t3 & s3 & cb & Hc & _ & _ & Hs3 & Hd3 & Ht3 & _);
    [discriminate|discriminate|simpl; lia|].
  split; [exists rc1, t1; auto|].
  split; [apply Hcpy1; reflexivity|].
  split; [exists rc2, t2; auto|].
  exists t3, s3, cb. auto.
Defined.

(** *** The copy loops of [push] *)

Lemma copy_from_whole (src : list Z) : forall (j : nat) (dst : record) (st : Store),
  length dst = (j + length src)%nat ->
  copy_from j src dst st = Done (take j dst ++ src) st.
Proof.
  induction src as [|x src IH]; intros j dst st Hlen; simpl in *.
  - rewrite app_nil_r, firstn_all2 by lia. reflexivity.
  - destruct (Nat.ltb_spec j (length dst)); [|lia].
    rewrite IH by (rewrite length_insert; lia).
    rewrite (take_S_r _ _ x) by (apply list_lookup_insert_eq; lia).
    rewrite take_insert_ge by lia. now rewrite <- app_assoc.
Qed.

Lemma copy_to_all_same_width (r0 : record) (others : list record) (st : Store) :
  Forall (fun r => length r = length r0) others ->
  copy_to_all r0 others st = Done (replicate (length others) r0) st.
Proof.
  induction 1 as [|r others Hr _ IH]; simpl; [reflexivity|].
  unfold bindM. rewrite copy_from_whole by (simpl; lia).
  rewrite IH. reflexivity.
Qed.

Lemma replicate_record_0_same_width r0 others st :
  Forall (fun r => length r = length r0) others ->
  replicate_record_0 (r0 :: others) st = Done (replicate (S (length others)) r0) st.
Proof.
  intros H. simpl. unfold bindM. now rewrite copy_to_all_same_width.
Qed.

(** *** The retry loop *)

Lemma push_accepted cb r cb' :
  Circular_Buffer.try_push cb r = (true, cb') -> Circular_Buffer.push cb r = (0, cb').
Proof. unfold Circular_Buffer.push. now intros ->. Qed.

Lemma push_refused cb r :
  Circular_Buffer.is_full cb = true -> Circular_Buffer.push cb r = (1, cb).
Proof. intros H. unfold Circular_Buffer.push. now rewrite try_push_full. Qed.

Lemma push_code cb r :
  Circular_Buffer.push cb r = (1, cb) /\ Circular_Buffer.is_full cb = true \/
  exists cb', Circular_Buffer.push cb r = (0, cb') /\
              Circular_Buffer.try_push cb r = (true, cb').
Proof.
  unfold Circular_Buffer.push, Circular_Buffer.try_push.
  destruct (Circular_Buffer.is_full cb); [left|right; eexists]; eauto.
Qed.

(** A call of the retry loop that returns has had its record accepted,
    once. *)
Lemma retry_push_returns env fuel b r : forall st st',
  retry_push env fuel b r st = Done tt st' ->
  trace st' = trace st ++ [EvAccept b r].
Proof.
  induction fuel as [|fuel IH]; intros st st'; simpl; [discriminate|].
  unfold bindM, get_buf. destruct (bufs st !! b) as [cb|]; [|discriminate].
  destruct (push_code cb r) as [[-> _]|(cb' & -> & _)]; simpl.
  - intros H. apply IH in H. exact H.
  - intros [= <-]. reflexivity.
Qed.

(** With room in the buffer the first attempt is accepted. *)
Lemma retry_push_room env fuel b r st cb cb' :
  bufs st !! b = Some cb ->
  Circular_Buffer.try_push cb r = (true, cb') ->
  retry_push env (S fuel) b r st =
    Done tt {| bufs := <[b := cb']> (bufs st); now := now st;
               trace := trace st ++ [EvAccept b r] |}.
Proof.
  intros Hb Hp. simpl. unfold bindM, get_buf. rewrite Hb.
  rewrite (push_accepted _ _ _ Hp). reflexivity.
Qed.

(** On a buffer that the other threads leave full, the loop uses up any
    bound: it never looks at the stop flag. *)
Lemma retry_push_full_spins env b r cb :
  Circular_Buffer.is_full cb = true ->
  (forall t h, h !! b = Some cb -> peers env t h !! b = Some cb) ->
  forall fuel st,
    bufs st !! b = Some cb ->
    exists st', retry_push env fuel b r st = Halt Spin st' /\
                bufs st' !! b = Some cb /\
                now st' = (now st + fuel)%nat /\ trace st' = trace st.
Proof.
  intros Hfull Hpeers. induction fuel as [|fuel IH]; intros st Hb; simpl.
  - exists st. unfold stuck. rewrite Nat.add_0_r. auto.
  - unfold bindM, get_buf. rewrite Hb, push_refused by done. simpl.
    rewrite list_insert_id, store_eta by done.
    destruct (IH (tick env st)) as (st' & -> & ? & Hn & ?).
    { simpl. now apply Hpeers. }
    exists st'. simpl in *. repeat split; try done. lia.
Qed.

(** *** The loop over the owned buffers *)

Lemma push_each_returns env fuel r0 sd : forall bf i st st',
  (forall k, (k < length bf)%nat -> sd !! (i + k)%nat = Some r0) ->
  push_each env fuel i bf sd st = Done tt st' ->
  trace st' = trace st ++ map (fun b => EvAccept b r0) bf.
Proof.
  induction bf as [|b bf IH]; intros i st st' Hsd; simpl.
  - intros [= <-]. now rewrite app_nil_r.
  - unfold bindM, at_index.
    pose proof (Hsd 0%nat ltac:(simpl; lia)) as H0. rewrite Nat.add_0_r in H0.
    rewrite H0. simpl.
    destruct (retry_push env fuel b r0 st) as [[] st1|] eqn:Hr; [|discriminate].
    apply retry_push_returns in Hr. intros H.
    apply IH in H.
    + rewrite H, Hr, <- app_assoc. reflexivity.
    + intros k Hk. replace (S i + k)%nat with (i + S k)%nat by lia.
      apply Hsd. simpl. lia.
Qed.

Lemma push_each_room env fuel r0 sd : forall bf i st,
  (forall k, (k < length bf)%nat -> sd !! (i + k)%nat = Some r0) ->
  NoDup bf ->
  (forall b, b ∈ bf -> exists cb, bufs st !! b = Some cb /\
                                  Circular_Buffer.is_full cb = false) ->
  exists st', push_each env (S fuel) i bf sd st = Done tt st' /\
              now st' = now st /\
              (forall b, b ∉ bf -> bufs st' !! b = bufs st !! b) /\
              (forall b, b ∈ bf -> exists cb cb',
                  bufs st !! b = Some cb /\
                  Circular_Buffer.try_push cb r0 = (true, cb') /\
                  bufs st' !! b = Some cb').
Proof.
  induction bf as [|b bf IH]; intros i st Hsd Hnd Hroom.
  - exists st. simpl. repeat split; try done. intros b Hb. inversion Hb.
  - apply NoDup_cons in Hnd as [Hnotin Hnd].
    destruct (Hroom b ltac:(left)) as (cb & Hcb & Hf).
    assert (Hp : exists cb', Circular_Buffer.try_push cb r0 = (true, cb')).
    { unfold Circular_Buffer.try_push. rewrite Hf. eauto. }
    destruct Hp as (cb' & Hp).
    pose proof (Hsd 0%nat ltac:(simpl; lia)) as H0. rewrite Nat.add_0_r in H0.
    set (st1 := {| bufs := <[b := cb']> (bufs st); now := now st;
                   trace := trace st ++ [EvAccept b r0] |}).
    destruct (IH (S i) st1) as (st' & Hrun & Hnow & Hout & Hin).
    { intros k Hk. replace (S i + k)%nat with (i + S k)%nat by lia.
      apply Hsd. simpl. lia. }
    { done. }
    { intros b1 Hb1. destruct (Hroom b1 ltac:(now right)) as (cb1 & Hcb1 & Hf1).
      exists cb1. split; [|done]. simpl.
      rewrite list_lookup_insert_ne; [done|]. intros ->. contradiction. }
    exists st'. split; [|split; [|split]].
    + change (push_each env (S fuel) i (b :: bf) sd st)
        with (bindM (at_index sd i) (fun r =>
                bindM (retry_push env (S fuel) b r)
                      (fun _ => push_each env (S fuel) (S i) bf sd)) st).
      unfold bindM at 1, at_index. rewrite H0. unfold ret at 1.
      unfold bindM at 1. rewrite (retry_push_room env fuel b r0 st cb cb' Hcb Hp).
      exact Hrun.
    + done.
    + intros b1 Hb1. rewrite Hout by (intros ?; apply Hb1; now right).
      simpl. apply list_lookup_insert_ne. intros ->. apply Hb1. now left.
    + intros b1 Hb1. apply elem_of_cons in Hb1 as [->|Hb1].
      * exists cb, cb'. split; [done|]. split; [done|].
        rewrite Hout by done. simpl. apply list_lookup_insert_eq.
        now apply lookup_lt_Some in Hcb.
      * destruct (Hin b1 Hb1) as (cb1 & cb1' & H1 & H2 & H3).
        exists cb1, cb1'. split; [|done]. simpl in H1.
        rewrite list_lookup_insert_ne in H1; [done|]. intros ->. contradiction.
Qed.

Lemma push_room env fuel (bs : t) (st : Store) r0 others :
  socket_data bs = r0 :: others ->
  Forall (fun r => length r = length r0) others ->
  length (buffer bs) = length (socket_data bs) ->
  NoDup (buffer bs) ->
  (forall b, b ∈ buffer bs ->
             exists cb, bufs st !! b = Some cb /\ Circular_Buffer.is_full cb = false) ->
  exists st',
    push env (S fuel) bs st =
      Done (0, with_data bs (replicate (S (length others)) r0) 0) st' /\
    now st' = now st /\
    (forall b, b ∉ buffer bs -> bufs st' !! b = bufs st !! b) /\
    forall b, b ∈ buffer bs -> exists cb cb',
        bufs st !! b = Some cb /\
        Circular_Buffer.try_push cb r0 = (true, cb') /\
        bufs st' !! b = Some cb'.
Proof.
  intros Hd Hw Hlen Hnd Hroom.
  assert (Hsd : forall k, (k < length (buffer bs))%nat ->
                replicate (S (length others)) r0 !! (0 + k)%nat = Some r0).
  { intros k Hk. apply lookup_replicate_2. rewrite Hlen, Hd in Hk. simpl in *. lia. }
  destruct (push_each_room env fuel r0 (replicate (S (length others)) r0)
              (buffer bs) 0%nat st Hsd Hnd Hroom) as (st' & Hrun & Hnow & Hout & Hin).
  exists st'. split; [|auto].
  unfold push, bindM. rewrite Hd, replicate_record_0_same_width by done.
  now rewrite Hrun.
Qed.

(** *** Waiting in the retry loop *)

Lemma waited_tick env k st : waited env k (tick env st) = waited env (S k) st.
Proof. unfold waited. symmetry. apply Nat.iter_succ_r. Qed.

Lemma refused_until_later env b k st cb :
  bufs st !! b = Some cb -> Circular_Buffer.is_full cb = true ->
  refused_until env b k (tick env st) -> refused_until env b (S k) st.
Proof.
  intros Hb Hf H [|j] Hj.
  - exists cb. auto.
  - rewrite <- waited_tick. apply H. lia.
Qed.

Lemma refused_until_earlier env b k st :
  refused_until env b (S k) st -> refused_until env b k (tick env st).
Proof. intros H j Hj. rewrite waited_tick. apply H. lia. Qed.

Lemma try_push_room cb r cb' :
  Circular_Buffer.try_push cb r = (true, cb') ->
  Circular_Buffer.is_full cb = false /\
  Circular_Buffer.occupied cb' = S (Circular_Buffer.occupied cb).
Proof.
  unfold Circular_Buffer.try_push. destruct (Circular_Buffer.is_full cb); [discriminate|].
  now intros [= <-].
Qed.

(** A call of the retry loop that returns was refused on a full buffer some
    number of times, an instant passing after each, and was then accepted
    by the buffer as the other threads had left it. *)
Lemma retry_push_delivers env b r : forall fuel st st',
  retry_push env fuel b r st = Done tt st' ->
  exists k cb cb',
    (k < fuel)%nat /\ refused_until env b k st /\
    bufs (waited env k st) !! b = Some cb /\
    Circular_Buffer.try_push cb r = (true, cb') /\
    st' = accept_in b r cb' (waited env k st).
Proof.
  induction fuel as [|fuel IH]; intros st st'; simpl; [discriminate|].
  unfold bindM, get_buf. destruct (bufs st !! b) as [cb|] eqn:Hb; [|discriminate].
  destruct (push_code cb r) as [[-> Hfull]|(cb' & -> & Hp)]; simpl.
  - rewrite list_insert_id, store_eta by done. intros H.
    destruct (IH _ _ H) as (k & cb1 & cb1' & Hk & Hr & Hb1 & Hp1 & ->).
    exists (S k), cb1, cb1'. rewrite <- waited_tick.
    split; [lia|]. split; [eapply refused_until_later; eauto|]. auto.
  - intros [= <-]. exists 0%nat, cb, cb'.
    split; [lia|]. split; [intros j Hj; lia|]. auto.
Qed.

(** The other way round: on a buffer that is full for [k] instants and has
    room at the next, the loop returns after [k] refusals with the record
    taken. *)
Lemma retry_push_waits env b r cb cb' : forall k fuel st,
  (k < fuel)%nat -> refused_until env b k st ->
  bufs (waited env k st) !! b = Some cb ->
  Circular_Buffer.try_push cb r = (true, cb') ->
  retry_push env fuel b r st = Done tt (accept_in b r cb' (waited env k st)).
Proof.
  induction k as [|k IH]; intros fuel st Hk Href Hb Hp;
    (destruct fuel as [|fuel]; [lia|]).
  - exact (retry_push_room env fuel b r st cb cb' Hb Hp).
  - destruct (Href 0%nat ltac:(lia)) as (cb0 & Hb0 & Hf0). simpl in Hb0.
    simpl. unfold bindM, get_buf. rewrite Hb0, push_refused by done. simpl.
    rewrite list_insert_id, store_eta by done.
    change (tick env (waited env k st)) with (waited env (S k) st).
    rewrite <- waited_tick. apply IH; [lia|now apply refused_until_earlier| |done].
    now rewrite waited_tick.
Qed.

Lemma push_each_delivers env fuel r0 sd : forall bf i st st',
  (forall k, (k < length bf)%nat -> sd !! (i + k)%nat = Some r0) ->
  push_each env fuel i bf sd st = Done tt st' ->
  delivered env fuel r0 bf st st'.
Proof.
  induction bf as [|b bf IH]; intros i st st' Hsd; simpl.
  - intros [= <-]. constructor.
  - unfold bindM, at_index.
    pose proof (Hsd 0%nat ltac:(simpl; lia)) as H0. rewrite Nat.add_0_r in H0.
    rewrite H0. simpl.
    destruct (retry_push env fuel b r0 st) as [[] st1|] eqn:Hr; [|discriminate].
    intros Hrest.
    destruct (retry_push_delivers _ _ _ _ _ _ Hr) as (k & cb & cb' & Hk & Href & Hb & Hp & ->).
    destruct (try_push_room _ _ _ Hp) as [Hf Hocc].
    apply (delivered_cons env fuel r0 b bf st st' k cb cb'); try done.
    + intros Hwf.
      destruct (try_push_accept cb r0 Hwf Hf) as (cb2 & Hp2 & _ & Hc2 & _).
      rewrite Hp in Hp2. now injection Hp2 as <-.
    + apply (IH (S i)); [|exact Hrest].
      intros j Hj. replace (S i + j)%nat with (i + S j)%nat by lia.
      apply Hsd. simpl. lia.
Qed.

Lemma push_each_complete env fuel r0 sd : forall bf st st',
  delivered env fuel r0 bf st st' -> forall i,
  (forall k, (k < length bf)%nat -> sd !! (i + k)%nat = Some r0) ->
  push_each env fuel i bf sd st = Done tt st'.
Proof.
  induction 1 as [st|b rest st st' k cb cb' Hk Href Hb Hf Hp Ho Hc Hrest IH];
    intros i Hsd; simpl; [reflexivity|].
  pose proof (Hsd 0%nat ltac:(simpl; lia)) as H0. rewrite Nat.add_0_r in H0.
  unfold bindM, at_index. rewrite H0. simpl.
  rewrite (retry_push_waits env b r0 cb cb' k fuel st Hk Href Hb Hp).
  apply IH. intros j Hj. replace (S i + j)%nat with (i + S j)%nat by lia.
  apply Hsd. simpl. lia.
Qed.

(** C5. On an output port with one staging record per owned buffer, all
    of the width of record 0: a call of [push] that returns answers 0, has
    copied record 0 into every staging record, has bound the task's socket
    to staging record 0, and has delivered record 0 into every owned buffer
    in order, each buffer having been retried while it was full and having
    taken the record at the end of its queue once it had room. And the call
    does return whenever the owned buffers get that room within the
    bound. *)
Theorem push_copies_delivers_rebinds (env : Env) (fuel : nat) (bs : t) (st : Store)
    (r0 : record) (others : list record) :
  socket_data bs = r0 :: others ->
  Forall (fun r => length r = length r0) others ->
  length (buffer bs) = length (socket_data bs) ->
  (forall rc bs' st',
      push env fuel bs st = Done (rc, bs') st' ->
      rc = 0 /\
      socket_data bs' = replicate (length (socket_data bs)) r0 /\
      buffer bs' = buffer bs /\
      dataptr (socket bs') = Some 0%nat /\
      Block.staged bs' = r0 /\
      delivered env fuel r0 (buffer bs) st st' /\
      trace st' = trace st ++ map (fun b => EvAccept b r0) (buffer bs)) /\
  (forall st',
      delivered env fuel r0 (buffer bs) st st' ->
      exists bs', push env fuel bs st = Done (0, bs') st').
Proof.
  intros Hd Hw Hlen.
  assert (Hsd : forall k, (k < length (buffer bs))%nat ->
                replicate (S (length others)) r0 !! (0 + k)%nat = Some r0).
  { intros k Hk. apply lookup_replicate_2. rewrite Hlen, Hd in Hk. simpl in *. lia. }
  assert (Hrep : replicate_record_0 (socket_data bs) st =
                 Done (replicate (S (length others)) r0) st).
  { rewrite Hd. now apply replicate_record_0_same_width. }
  split.
  - intros rc bs' st'. unfold push, bindM. rewrite Hrep.
    destruct (push_each env fuel 0 (buffer bs) _ st) as [[] st1|] eqn:Hp; [|discriminate].
    intros [= <- <- <-].
    pose proof (push_each_delivers env fuel r0 _ _ _ _ _ Hsd Hp) as Hdel.
    apply (push_each_returns env fuel r0) in Hp; [|exact Hsd].
    rewrite Hd. unfold Block.staged. simpl. auto 10.
  - intros st' Hdel. eexists. unfold push, bindM. rewrite Hrep.
    now rewrite (push_each_complete env fuel r0 _ _ _ _ Hdel 0%nat Hsd).
Qed.

Lemma push_copies_delivers_rebinds_witness :
  let bs := mk (Build_Socket "X_N" 2 "int32" (Some 0%nat)) OUT 1 [[1; 2]] [0%nat] 0 in
  let st := {| bufs := [Circular_Buffer.mk [[9; 9]] 0 0 1 false]; now := 0; trace := [] |} in
  exists bs' st' cb',
    push slow_consumer 3 bs st = Done (0, bs') st' /\
    now st' = 2%nat /\
    bufs st' !! 0%nat = Some cb' /\
    Circular_Buffer.contents cb' = [[1; 2]] /\
    socket_data bs' = [[1; 2]] /\
    dataptr (socket bs') = Some 0%nat /\
    Block.staged bs' = [1; 2] /\
    delivered slow_consumer 3 [1; 2] [0%nat] st st' /\
    push slow_consumer 2 bs st =
      Halt Spin {| bufs := [Circular_Buffer.mk [[9; 9]] 0 0 0 false];
                   now := 2; trace := [] |}.
Proof.
  intros bs st.
  assert (Hrun : exists bs' st' cb',
            push slow_consumer 3 bs st = Done (0, bs') st' /\
            now st' = 2%nat /\ bufs st' !! 0%nat = Some cb' /\
            Circular_Buffer.contents cb' = [[1; 2]]).
  { eexists. eexists. eexists. split; [vm_compute; reflexivity|].
    split; [reflexivity|]. split; reflexivity. }
  destruct Hrun as (bs' & st' & cb' & Hrun & Hnow & Hb & Hc).
  destruct (push_copies_delivers_rebinds slow_consumer 3 bs st [1; 2] []) as [Hret _].
  - reflexivity.
  - constructor.
  - reflexivity.
  - destruct (Hret _ _ _ Hrun) as (_ & Hsd & _ & Hptr & Hstaged & Hdel & _).
    exists bs', st', cb'. repeat (split; [assumption|]).
    vm_compute. reflexivity.
Defined.

End Buffered_Socket_facts.

(** * Properties of the block *)

Section Block_facts.

(** A declared socket whose datatype string is none of the six is passed
    over: no port, no error. *)
Lemma make_sockets_unknown_kind s ty decl buffer_size ins outs :
  Block.instantiation (datatype_string s) = None ->
  Block.make_sockets ((s, ty) :: decl) buffer_size ins outs =
  Block.make_sockets decl buffer_size ins outs.
Proof. intros H. simpl. rewrite H. now destruct (Socket_type_eqb ty IN). Qed.

(** A name that is no input port of the block: [bind] answers 1 and
    nothing is changed. *)
Lemma bind_unknown_start this start dest dest_name st :
  StdMap.find start (Block.buffered_sockets_in this) = None ->
  Block.bind this start dest dest_name st = Done (1, this) st.
Proof.
  intros H. unfold Block.bind, Block.bind_as, Block.get_buffered_socket_in.
  now rewrite H.
Qed.

(** The consumer's port is found and the producer's is not, for a missing
    name or for another scalar kind: [Block::bind] hands the null pointer to
    [Buffered_Socket::bind], which reads through it. *)
Lemma bind_null_producer this start dest dest_name st sck T :
  StdMap.find start (Block.buffered_sockets_in this) = Some sck ->
  datatype_string (Buffered_Socket.socket sck) = type_to_string T ->
  Block.get_buffered_socket_out dest T dest_name = None ->
  Block.bind this start dest dest_name st = Halt (Fault NullDeref) st.
Proof.
  intros Hfind Hkind Hout.
  unfold Block.bind, Block.bind_as, Block.get_buffered_socket_in.
  rewrite Hfind, Hkind.
  destruct T; simpl; unfold bindM; rewrite Hout; reflexivity.
Qed.








(** C2, at the failing inputs. The encoder block asks for a port that
    the source block does not have, and the decoder block asks for the
    encoder's [int32] output with its [float32] input: in both calls the
    lookup on the producer's side answers the null pointer and
    [Buffered_Socket::bind] reads through it. No error code is returned. *)
Theorem bind_reads_through_null_producer :
  (exists st,
     (do bl_source <- Block.new generate 8 1 ;
      do bl_encoder <- Block.new encode 8 1 ;
      Block.bind bl_encoder "U_K" bl_source "X_N") empty_store
     = Halt (Fault NullDeref) st) /\
  (exists st,
     (do bl_encoder <- Block.new encode 8 1 ;
      do bl_decoder <- Block.new decode_siho 8 1 ;
      Block.bind bl_decoder "Y_N" bl_encoder "X_N") empty_store
     = Halt (Fault NullDeref) st).
Proof. split; eexists; vm_compute; reflexivity. Qed.

(** C10, at the failing input. The block is built without a word and has
    no port for the socket [X_N]; a later bind of the modem's input to that
    name does not fail as a missing port: the lookup on the producer's side
    answers the null pointer and [Buffered_Socket::bind] reads through
    it. *)
Theorem unknown_kind_port_absent_then_null :
  exists bl_encoder st,
    Block.new encode_uint8 8 1 empty_store = Done bl_encoder st /\
    StdMap.keys (Block.buffered_sockets_in bl_encoder) = ["U_K"] /\
    StdMap.keys (Block.buffered_sockets_out bl_encoder) = [] /\
    exists bl_modem st',
      Block.new modulate 8 1 st = Done bl_modem st' /\
      Block.bind bl_modem "X_N1" bl_encoder "X_N" st' = Halt (Fault NullDeref) st'.
Proof.
  eexists. eexists. split; [vm_compute; reflexivity|].
  split; [reflexivity|]. split; [reflexivity|].
  eexists. eexists. split; vm_compute; reflexivity.
Qed.

End Block_facts.

Section Shutdown.

Lemma push_full_spins env fuel bs st b more r0 others cb :
  Buffered_Socket.buffer bs = b :: more ->
  Buffered_Socket.socket_data bs = r0 :: others ->
  Forall (fun r => length r = length r0) others ->
  bufs st !! b = Some cb ->
  Circular_Buffer.is_full cb = true ->
  (forall t h, h !! b = Some cb -> peers env t h !! b = Some cb) ->
  exists st', Buffered_Socket.push env fuel bs st = Halt Spin st' /\
              now st' = (now st + fuel)%nat /\ trace st' = trace st.
Proof.
  intros Hb Hd Hw Hcb Hfull Hpeers.
  destruct (retry_push_full_spins env b r0 cb Hfull Hpeers fuel st Hcb)
    as (st' & Hspin & _ & Hnow & Htr).
  exists st'. split; [|done].
  unfold Buffered_Socket.push, bindM.
  rewrite Hd, replicate_record_0_same_width by done.
  rewrite Hb. simpl. unfold bindM, at_index. simpl. now rewrite Hspin.
Qed.

(** The loop of [execute_task] around [push] reads the flag before the
    call only: once inside a call on a full buffer it never comes back. *)
Lemma deliver_full_spins env fuel n k bs st b more r0 others cb :
  Buffered_Socket.buffer bs = b :: more ->
  Buffered_Socket.socket_data bs = r0 :: others ->
  Forall (fun r => length r = length r0) others ->
  bufs st !! b = Some cb ->
  Circular_Buffer.is_full cb = true ->
  (forall t h, h !! b = Some cb -> peers env t h !! b = Some cb) ->
  isDone env (now st) = false ->
  exists st', Block.deliver env fuel (S n) k bs st = Halt Spin st' /\
              now st' = (now st + 1 + fuel)%nat /\ trace st' = trace st.
Proof.
  intros Hb Hd Hw Hcb Hfull Hpeers Hflag.
  destruct (push_full_spins env fuel bs (tick env st) b more r0 others cb Hb Hd Hw)
    as (st' & Hspin & Hnow & Htr); try done.
  { simpl. now apply Hpeers. }
  exists st'. split; [|simpl in *; split; [lia|done]].
  simpl. unfold bindM at 1, read_isDone. rewrite Hflag.
  unfold bindM. now rewrite Hspin.
Qed.

Lemma main_loop_turn env fuel n task_id blk :
  Block.main_loop env fuel (S n) task_id blk =
  (do flag <- read_isDone env ;
   if flag then ret blk
   else
     do _ <- emit EvLoop ;
     do ins <- Block.for_each (Block.poll env fuel) (Block.buffered_sockets_in blk) ;
     do flag <- read_isDone env ;
     if flag then ret (Block.with_in blk ins)
     else
       do blk' <- Block.exec task_id (Block.with_in blk ins) ;
       do outs <- Block.for_each (Block.deliver env fuel fuel)
                    (Block.buffered_sockets_out blk') ;
       Block.main_loop env fuel n task_id (Block.with_out blk' outs)).
Proof. reflexivity. Qed.

Lemma second_push_spins (fuel : nat) :
  exists st,
    (do bl_source <- Block.new generate 1 1 ;
     Block.execute_task late_stop (2 + fuel) 0 bl_source) empty_store = Halt Spin st /\
    now st = (8 + fuel)%nat /\
    trace st = [EvLoop; EvExec; EvAccept 0 (zero_record 16); EvPush "U_K" 0;
                EvLoop; EvExec].
Proof.
  unfold bindM at 1.
  let v := eval vm_compute in (Block.new generate 1 1 empty_store) in
  change (Block.new generate 1 1 empty_store) with v.
  cbv beta iota. unfold Block.execute_task. unfold bindM at 1.
  change (2 + fuel)%nat with (S (S fuel)).
  rewrite main_loop_turn.
  cbn -[Block.main_loop].
  rewrite main_loop_turn.
  cbn -[Block.main_loop Block.deliver]. unfold bindM.
  match goal with
  | |- context [Block.deliver ?e ?f (S ?n) ?k ?bs ?s] =>
      destruct (deliver_full_spins e f n k bs s 0%nat [] (zero_record 16) []
                  (Circular_Buffer.mk [zero_record 16] 0 0 1 false))
        as (st' & Hspin & Hnow & Htr);
      [reflexivity|reflexivity|constructor|reflexivity|reflexivity
      |intros; assumption|reflexivity|]
  end.
  exists st'. rewrite Hspin.
  split; [reflexivity|]. simpl in Hnow, Htr.
  rewrite Hnow, Htr. split; [lia|reflexivity].
Qed.

(** C3, at the failing input. The source block of [main.cpp] with
    capacity 1 and nobody draining its buffer; the flag is set from
    instant 6 on, after the second call of the task. The first record is
    accepted; the second call of [push] finds the buffer full and spins
    in [Buffered_Socket::push], where the flag is not read. Whatever the
    bound, the worker has not returned; and with a bound of two turns or
    more it is inside that second call, at an instant when the flag has
    been set. *)
Theorem worker_hangs_in_push_after_stop :
  (forall fuel, exists st,
     (do bl_source <- Block.new generate 1 1 ;
      Block.execute_task late_stop fuel 0 bl_source) empty_store = Halt Spin st) /\
  (forall fuel, exists st,
     (do bl_source <- Block.new generate 1 1 ;
      Block.execute_task late_stop (2 + fuel) 0 bl_source) empty_store = Halt Spin st /\
     isDone late_stop (now st) = true /\
     trace st = [EvLoop; EvExec; EvAccept 0 (zero_record 16); EvPush "U_K" 0;
                 EvLoop; EvExec]).
Proof.
  split; intros fuel.
  - destruct fuel as [|[|fuel]].
    + eexists. vm_compute. reflexivity.
    + eexists. vm_compute. reflexivity.
    + destruct (second_push_spins fuel) as (st & H & _). eauto.
  - destruct (second_push_spins fuel) as (st & H & Hnow & Htr).
    exists st. split; [done|]. split; [|done]. rewrite Hnow. reflexivity.
Qed.

End Shutdown.

Create HintDb emits discriminated.

Section Worker.
Variable env : Env.

Lemma emits_ret P A (a : A) : emits_only P (ret a).
Proof. intros st. exists []. simpl. rewrite app_nil_r. auto. Qed.

Lemma emits_stuck P A w : emits_only P (@stuck A w).
Proof. intros st. exists []. simpl. rewrite app_nil_r. auto. Qed.

Lemma emits_emit (P : event -> Prop) e : P e -> emits_only P (emit e).
Proof. intros H st. exists [e]. simpl. auto. Qed.

Lemma emits_get_buf P b : emits_only P (get_buf b).
Proof.
  intros st. exists []. unfold get_buf. rewrite app_nil_r.
  destruct (bufs st !! b); simpl; auto.
Qed.

Lemma emits_set_buf P b cb : emits_only P (set_buf b cb).
Proof. intros st. exists []. simpl. rewrite app_nil_r. auto. Qed.

Lemma emits_at_index P A (l : list A) i : emits_only P (at_index l i).
Proof.
  unfold at_index. destruct (l !! i); [apply emits_ret|apply emits_stuck].
Qed.

Lemma emits_yield P : emits_only P (yield env).
Proof. intros st. exists []. simpl. rewrite app_nil_r. auto. Qed.

Lemma emits_read_isDone P : emits_only P (read_isDone env).
Proof. intros st. exists []. simpl. rewrite app_nil_r. auto. Qed.

Lemma emits_bind P A B (m : M A) (k : A -> M B) :
  emits_only P m -> (forall a, emits_only P (k a)) -> emits_only P (bindM m k).
Proof.
  intros Hm Hk st. destruct (Hm st) as (evs1 & Ht1 & Hp1 & Hn1).
  unfold bindM. destruct (m st) as [a st1|w st1]; simpl in *.
  - destruct (Hk a st1) as (evs2 & Ht2 & Hp2 & Hn2).
    exists (evs1 ++ evs2). rewrite Ht2, Ht1, <- app_assoc.
    split; [done|]. split; [now apply Forall_app|lia].
  - exists evs1. auto.
Qed.

Hint Resolve emits_ret emits_stuck emits_emit emits_get_buf emits_set_buf
  emits_at_index emits_yield emits_read_isDone : emits.

Ltac emits_step :=
  repeat first
    [ apply emits_bind; [|intros ?]
    | progress eauto with emits
    | match goal with
      | |- emits_only _ (let '(_, _) := ?p in _) => destruct p
      | |- emits_only _ (if ?c then _ else _) => destruct c
      | |- emits_only _ (match ?o with Some _ => _ | None => _ end) => destruct o
      end ].

Lemma emits_pop bs : emits_only polling_event (Buffered_Socket.pop bs).
Proof.
  unfold Buffered_Socket.pop. emits_step.
  apply emits_emit. exact I.
Qed.

Lemma emits_retry_push fuel b r :
  emits_only not_exec (Buffered_Socket.retry_push env fuel b r).
Proof.
  induction fuel as [|fuel IH]; simpl; emits_step.
  apply emits_emit. discriminate.
Qed.

Lemma emits_push_each fuel sd : forall bf i,
  emits_only not_exec (Buffered_Socket.push_each env fuel i bf sd).
Proof.
  induction bf as [|b bf IH]; intros i; simpl; emits_step.
  apply emits_retry_push.
Qed.

Lemma emits_copy_from P : forall src j dst,
  emits_only P (Buffered_Socket.copy_from j src dst).
Proof. induction src as [|x src IH]; intros j dst; simpl; emits_step. Qed.

Lemma emits_copy_to_all P r0 others :
  emits_only P (Buffered_Socket.copy_to_all r0 others).
Proof.
  induction others as [|r others IH]; simpl; emits_step. apply emits_copy_from.
Qed.

Lemma emits_push fuel bs : emits_only not_exec (Buffered_Socket.push env fuel bs).
Proof.
  unfold Buffered_Socket.push, Buffered_Socket.replicate_record_0.
  apply emits_bind; [|intros sd; apply emits_bind; [apply emits_push_each|]].
  - destruct (Buffered_Socket.socket_data bs); emits_step. apply emits_copy_to_all.
  - intros _. apply emits_ret.
Qed.

Lemma emits_deliver fuel k : forall n bs,
  emits_only not_exec (Block.deliver env fuel n k bs).
Proof.
  induction n as [|n IH]; intros bs; simpl; [apply emits_stuck|].
  apply emits_bind; [apply emits_read_isDone|].
  intros [|]; [apply emits_ret|].
  apply emits_bind; [apply emits_push|]. intros [rc bs'].
  apply emits_bind; [apply emits_emit; discriminate|]. intros _.
  destruct (rc =? 0); [apply emits_ret|apply IH].
Qed.

Lemma emits_for_each_buffer P f : forall bf,
  emits_only P (Buffered_Socket.for_each_buffer f bf).
Proof. induction bf as [|b bf IH]; simpl; emits_step. Qed.

Lemma emits_stop_port k bs : emits_only not_exec (Block.stop_port k bs).
Proof.
  unfold Block.stop_port, Buffered_Socket.stop. emits_step.
  - apply emits_for_each_buffer.
  - apply emits_emit. discriminate.
Qed.

Lemma emits_for_each P body :
  (forall k bs, emits_only P (body k bs)) ->
  forall m, emits_only P (Block.for_each body m).
Proof.
  intros Hbody. induction m as [|[k bs] m IH]; simpl; emits_step.
Qed.

(** *** Polling the input ports *)

Lemma polled_app evs1 evs2 : polled (evs1 ++ evs2) = polled evs1 ++ polled evs2.
Proof.
  induction evs1 as [|e evs1 IH]; simpl; [done|].
  destruct e; try done. destruct (rc =? 0); simpl; now rewrite IH.
Qed.

Lemma flag_seen_later st st' :
  flag_seen env st -> (now st <= now st')%nat -> flag_seen env st'.
Proof. intros (t & Ht & Hd) Hle. exists t. split; [lia|done]. Qed.

Lemma polling_not_exec evs : Forall polling_event evs -> Forall not_exec evs.
Proof.
  intros H. eapply Forall_impl; [exact H|].
  intros e He. destruct e; simpl in He; try done; discriminate.
Qed.

Lemma pop_events bs st :
  exists evs,
    trace (final (Buffered_Socket.pop bs st)) = trace st ++ evs /\
    Forall polling_event evs /\ polled evs = [] /\
    now (final (Buffered_Socket.pop bs st)) = now st.
Proof.
  unfold Buffered_Socket.pop, bindM, at_index.
  destruct (Buffered_Socket.buffer bs !! 0%nat) as [b|]; simpl.
  2:{ exists []. rewrite app_nil_r. auto. }
  unfold get_buf. destruct (bufs st !! b) as [cb|]; simpl.
  2:{ exists []. rewrite app_nil_r. auto. }
  destruct (Buffered_Socket.socket_data bs !! 0%nat) as [r0|]; simpl.
  2:{ exists []. rewrite app_nil_r. auto. }
  destruct (Circular_Buffer.pop cb r0) as [[rc r] cb']. simpl.
  destruct (rc =? 1); simpl.
  - exists []. rewrite app_nil_r. auto.
  - exists [EvTake b r]. repeat split; auto. repeat constructor.
Qed.

Lemma poll_turn fuel k bs st :
  Block.poll env (S fuel) k bs st =
  if isDone env (now st) then Done bs (tick env st)
  else match Buffered_Socket.pop bs (tick env st) with
       | Done (rc, bs') st' =>
           if rc =? 0 then Done bs' (log (EvPop k rc) st')
           else Block.poll env fuel k bs' (log (EvPop k rc) st')
       | Halt w st' => Halt w st'
       end.
Proof.
  simpl. unfold bindM, read_isDone.
  destruct (isDone env (now st)); [reflexivity|].
  destruct (Buffered_Socket.pop bs (tick env st)) as [[rc bs'] st'|]; [|reflexivity].
  unfold emit. destruct (rc =? 0); reflexivity.
Qed.

Lemma for_each_cons body k bs m st :
  Block.for_each body ((k, bs) :: m) st =
  match body k bs st with
  | Done bs' st1 =>
      match Block.for_each body m st1 with
      | Done m' st2 => Done ((k, bs') :: m') st2
      | Halt w st2 => Halt w st2
      end
  | Halt w st1 => Halt w st1
  end.
Proof.
  simpl. unfold bindM. destruct (body k bs st) as [bs' st1|]; [|reflexivity].
  destruct (Block.for_each body m st1); reflexivity.
Qed.

(** One polling loop returns after a [pop] that answered 0 or after a
    read of the flag that found it set. *)
Lemma poll_spec fuel k : forall bs st r,
  Block.poll env fuel k bs st = r ->
  exists evs,
    trace (final r) = trace st ++ evs /\
    Forall polling_event evs /\
    (now st <= now (final r))%nat /\
    match r with
    | Done _ st' => polled evs = [k] \/ flag_seen env st'
    | Halt _ _ => True
    end.
Proof.
  induction fuel as [|fuel IH]; intros bs st r Hr.
  - subst r. exists []. simpl. rewrite app_nil_r. auto.
  - rewrite poll_turn in Hr.
    destruct (isDone env (now st)) eqn:Hflag.
    + subst r. exists []. simpl. rewrite app_nil_r. repeat split; auto.
      right. exists (now st). simpl. auto.
    + destruct (pop_events bs (tick env st)) as (evs1 & Ht1 & Hp1 & Hq1 & Hn1).
      destruct (Buffered_Socket.pop bs (tick env st)) as [[rc bs'] st2|w st2];
        simpl in Ht1, Hn1.
      2:{ subst r. exists evs1. simpl. repeat split; auto. lia. }
      destruct (rc =? 0) eqn:Hrc.
      * subst r. exists (evs1 ++ [EvPop k rc]). simpl. rewrite Ht1, <- app_assoc.
        repeat split; auto.
        -- apply Forall_app. split; [done|]. repeat constructor.
        -- lia.
        -- left. rewrite polled_app, Hq1. simpl. rewrite Hrc. reflexivity.
      * destruct (IH bs' (log (EvPop k rc) st2) r Hr) as (evs2 & Ht2 & Hp2 & Hn2 & Hres).
        exists (evs1 ++ EvPop k rc :: evs2).
        rewrite Ht2. simpl. rewrite Ht1, <- !app_assoc. simpl.
        repeat split; auto.
        -- apply Forall_app. split; [done|]. constructor; [exact I|done].
        -- simpl in Hn2. lia.
        -- destruct r as [bs'' st4|]; [|done].
           destruct Hres as [Hres|Hres]; [|now right].
           left. rewrite polled_app, Hq1. simpl. now rewrite Hrc.
Qed.

Lemma for_each_poll_spec fuel : forall m st r,
  Block.for_each (Block.poll env fuel) m st = r ->
  exists evs,
    trace (final r) = trace st ++ evs /\
    Forall polling_event evs /\
    (now st <= now (final r))%nat /\
    match r with
    | Done m' st' =>
        StdMap.keys m' = StdMap.keys m /\
        (polled evs = StdMap.keys m \/ flag_seen env st')
    | Halt _ _ => True
    end.
Proof.
  induction m as [|[k bs] m IH]; intros st r Hr.
  - subst r. exists []. simpl. rewrite app_nil_r. repeat split; auto.
  - rewrite for_each_cons in Hr.
    destruct (poll_spec fuel k bs st _ eq_refl) as (evs1 & Ht1 & Hp1 & Hn1 & Hres1).
    destruct (Block.poll env fuel k bs st) as [bs' st1|w st1]; simpl in Ht1, Hn1.
    2:{ subst r. exists evs1. simpl. auto. }
    destruct (IH st1 _ eq_refl) as (evs2 & Ht2 & Hp2 & Hn2 & Hres2).
    destruct (Block.for_each (Block.poll env fuel) m st1) as [m' st2|w st2];
      simpl in Ht2, Hn2; subst r.
    2:{ exists (evs1 ++ evs2). simpl. rewrite Ht2, Ht1, <- app_assoc.
        repeat split; auto; [now apply Forall_app|lia]. }
    exists (evs1 ++ evs2). simpl. rewrite Ht2, Ht1, <- app_assoc.
    destruct Hres2 as [Hkeys Hres2].
    repeat split; auto.
    + now apply Forall_app.
    + lia.
    + unfold StdMap.keys in *. simpl. now rewrite Hkeys.
    + destruct Hres1 as [Hres1|Hres1].
      * destruct Hres2 as [Hres2|Hres2]; [|now right].
        left. rewrite polled_app, Hres1, Hres2. reflexivity.
      * right. eapply flag_seen_later; eauto.
Qed.

(** *** Guarded traces *)

Lemma exec_guarded_app names evs tl :
  exec_guarded names evs -> Forall not_exec tl -> exec_guarded names (evs ++ tl).
Proof.
  induction 1 as [evs He|before polls rest Hb Hp Hn Hr IH]; intros Htl.
  - apply eg_idle. now apply Forall_app.
  - rewrite <- app_assoc. simpl. rewrite <- app_assoc. simpl.
    apply eg_turn; auto.
Qed.

Lemma exec_guarded_after names hd evs :
  Forall not_exec hd -> exec_guarded names evs -> exec_guarded names (hd ++ evs).
Proof.
  intros Hhd [evs' He|before polls rest Hb Hp Hn Hr].
  - apply eg_idle. now apply Forall_app.
  - rewrite app_assoc. apply eg_turn; auto. now apply Forall_app.
Qed.

Lemma split_at_first (x : event) : forall l1 l2 pre post,
  Forall (fun e => e <> x) l1 ->
  l1 ++ x :: l2 = pre ++ x :: post ->
  pre = l1 /\ post = l2 \/
  exists pre', pre = l1 ++ x :: pre' /\ l2 = pre' ++ x :: post.
Proof.
  induction l1 as [|e l1 IH]; intros l2 pre post Hne Heq.
  - destruct pre as [|p pre]; simpl in *.
    + left. now injection Heq.
    + right. injection Heq as <- ->. eauto.
  - apply Forall_cons in Hne as [He Hne].
    destruct pre as [|p pre]; simpl in *.
    + injection Heq as -> _. contradiction.
    + injection Heq as <- Heq. destruct (IH _ _ _ Hne Heq) as [[-> ->]|(pre' & -> & ->)].
      * now left.
      * right. eauto.
Qed.

(** In a guarded trace every call of the task comes right after the
    polling of one turn, in which every port of [names] was popped. *)
Lemma exec_guarded_split names evs :
  exec_guarded names evs ->
  forall pre post, evs = pre ++ EvExec :: post ->
  exists before polls,
    pre = before ++ EvLoop :: polls /\
    Forall polling_event polls /\ polled polls = names.
Proof.
  induction 1 as [evs He|before polls rest Hb Hp Hn Hr IH]; intros pre post Heq.
  - subst evs. apply Forall_app in He as [_ He].
    apply Forall_cons in He as [He _]. now contradiction He.
  - replace (before ++ EvLoop :: polls ++ EvExec :: rest)
      with ((before ++ EvLoop :: polls) ++ EvExec :: rest) in Heq
      by (rewrite <- app_assoc; reflexivity).
    apply split_at_first in Heq.
    + destruct Heq as [[-> ->]|(pre' & -> & Hrest)]; [eauto|].
      destruct (IH _ _ Hrest) as (before' & polls' & -> & ? & ?).
      exists ((before ++ EvLoop :: polls) ++ EvExec :: before'), polls'.
      split; [|done]. now rewrite <- !app_assoc.
    + apply Forall_app. split; [exact Hb|].
      constructor; [discriminate|]. now apply polling_not_exec.
Qed.

(** *** The main loop *)

Lemma exec_spec task_id blk st :
  match Block.exec task_id blk st with
  | Done blk' st' =>
      trace st' = trace st ++ [EvExec] /\ now st' = now st /\
      Block.buffered_sockets_in blk' = Block.buffered_sockets_in blk
  | Halt _ st' => st' = st
  end.
Proof.
  unfold Block.exec.
  destruct ((0 <=? task_id) && (task_id <? Block.n_threads blk)); simpl; auto.
Qed.

Hypothesis flag_monotone :
  forall i j, (i <= j)%nat -> isDone env i = true -> isDone env j = true.

Lemma main_loop_body fuel n task_id blk st :
  Block.main_loop env fuel (S n) task_id blk st =
  if isDone env (now st) then Done blk (tick env st)
  else
    match Block.for_each (Block.poll env fuel) (Block.buffered_sockets_in blk)
            (log EvLoop (tick env st)) with
    | Halt w st' => Halt w st'
    | Done ins st2 =>
        if isDone env (now st2) then Done (Block.with_in blk ins) (tick env st2)
        else
          match Block.exec task_id (Block.with_in blk ins) (tick env st2) with
          | Halt w st' => Halt w st'
          | Done blk' st4 =>
              match Block.for_each (Block.deliver env fuel fuel)
                      (Block.buffered_sockets_out blk') st4 with
              | Halt w st' => Halt w st'
              | Done outs st5 =>
                  Block.main_loop env fuel n task_id (Block.with_out blk' outs) st5
              end
          end
    end.
Proof.
  rewrite main_loop_turn. unfold bindM, read_isDone, emit.
  destruct (isDone env (now st)); [reflexivity|].
  destruct (Block.for_each _ _ _) as [ins st2|]; [|reflexivity].
  destruct (isDone env (now st2)); [reflexivity|].
  destruct (Block.exec _ _ _) as [blk' st4|]; [|reflexivity].
  destruct (Block.for_each _ _ _); reflexivity.
Qed.

Lemma main_loop_guarded fuel task_id : forall n blk st r,
  Block.main_loop env fuel n task_id blk st = r ->
  exists evs,
    trace (final r) = trace st ++ evs /\
    exec_guarded (StdMap.keys (Block.buffered_sockets_in blk)) evs.
Proof.
  induction n as [|n IH]; intros blk st r Hr.
  - subst r. exists []. simpl. rewrite app_nil_r. split; [done|]. now apply eg_idle.
  - rewrite main_loop_body in Hr.
    destruct (isDone env (now st)) eqn:Hflag.
    { subst r. exists []. simpl. rewrite app_nil_r. split; [done|]. now apply eg_idle. }
    destruct (for_each_poll_spec fuel (Block.buffered_sockets_in blk)
                (log EvLoop (tick env st)) _ eq_refl)
      as (polls & Ht2 & Hp2 & Hn2 & Hres).
    assert (Hidle : exec_guarded (StdMap.keys (Block.buffered_sockets_in blk))
                      (EvLoop :: polls)).
    { apply eg_idle. constructor; [discriminate|]. now apply polling_not_exec. }
    destruct (Block.for_each (Block.poll env fuel) _ _) as [ins st2|w st2];
      simpl in Ht2, Hn2.
    2:{ subst r. exists (EvLoop :: polls). simpl. rewrite Ht2, <- app_assoc. auto. }
    destruct Hres as [Hkeys Hres].
    destruct (isDone env (now st2)) eqn:Hflag2.
    { subst r. exists (EvLoop :: polls). simpl. rewrite Ht2, <- app_assoc. auto. }
    destruct Hres as [Hall|(t & Ht & Hd)].
    2:{ rewrite (flag_monotone t (now st2)) in Hflag2 by (done || lia). discriminate. }
    pose proof (exec_spec task_id (Block.with_in blk ins) (tick env st2)) as Hexec.
    destruct (Block.exec task_id (Block.with_in blk ins) (tick env st2))
      as [blk' st4|w st4].
    2:{ subst r st4. exists (EvLoop :: polls). simpl. rewrite Ht2, <- app_assoc. auto. }
    destruct Hexec as (Ht4 & _ & Hin4). simpl in Ht4, Hin4.
    destruct (emits_for_each not_exec (Block.deliver env fuel fuel)
                (fun k bs => emits_deliver fuel k fuel bs)
                (Block.buffered_sockets_out blk') st4)
      as (pushes & Ht5 & Hp5 & _).
    destruct (Block.for_each (Block.deliver env fuel fuel) _ st4) as [outs st5|w st5];
      simpl in Ht5.
    2:{ subst r. exists ([] ++ EvLoop :: polls ++ EvExec :: pushes). simpl.
        rewrite Ht5, Ht4, Ht2. rewrite <- !app_assoc. simpl.
        split; [done|].
        apply (eg_turn _ [] polls pushes); auto. now apply eg_idle. }
    destruct (IH (Block.with_out blk' outs) st5 r Hr) as (rest & Ht6 & Hg6).
    simpl in Hg6. rewrite Hin4, Hkeys in Hg6.
    exists ([] ++ EvLoop :: polls ++ EvExec :: pushes ++ rest).
    rewrite Ht6, Ht5, Ht4, Ht2. rewrite <- !app_assoc. simpl.
    split; [done|].
    apply (eg_turn _ [] polls (pushes ++ rest)); auto.
    now apply exec_guarded_after.
Qed.

(** C4, amended. With a stop flag that stays set once it is set:
    the task is called only at the end of a turn of the main loop in which
    every input port of the block has had a [pop] that answered 0. In the
    events of a run of [execute_task], whatever its outcome, each call of the
    task comes right after the start of a turn and the polling of that turn,
    and that polling holds a successful [pop] of each input port, in the
    order of the map. And a turn in which the flag is read as set, by one of
    the polling loops or by the test that follows them, is the last: the main
    loop returns at the end of the polling, with the ports as the polling
    left them, and that turn holds no call of the task. The instants after
    the read at the head of the turn up to the one of the test after the
    polling are the reads of the flag in that turn. *)
Theorem exec_only_after_all_inputs_popped (fuel : nat) (task_id : Z)
    (blk : Block.t) (st : Store) :
  (exists evs,
     trace (final (Block.execute_task env fuel task_id blk st)) = trace st ++ evs /\
     forall pre post,
       evs = pre ++ EvExec :: post ->
       exists before polls,
         pre = before ++ EvLoop :: polls /\
         Forall polling_event polls /\
         polled polls = StdMap.keys (Block.buffered_sockets_in blk)) /\
  (forall n ins st2 t,
     isDone env (now st) = false ->
     Block.for_each (Block.poll env fuel) (Block.buffered_sockets_in blk)
       (log EvLoop (tick env st)) = Done ins st2 ->
     (now st < t <= now st2)%nat ->
     isDone env t = true ->
     exists polls,
       Block.main_loop env fuel (S n) task_id blk st =
         Done (Block.with_in blk ins) (tick env st2) /\
       trace (tick env st2) = trace st ++ EvLoop :: polls /\
       Forall polling_event polls).
Proof.
  split.
  - destruct (main_loop_guarded fuel task_id fuel blk st _ eq_refl) as (evs & Ht & Hg).
    unfold Block.execute_task, bindM at 1.
    destruct (Block.main_loop env fuel fuel task_id blk st) as [blk' st1|w st1];
      simpl in Ht.
    2:{ exists evs. split; [done|]. now apply exec_guarded_split. }
    assert (Hstop : emits_only not_exec
              (do _ <- Block.for_each Block.stop_port (Block.buffered_sockets_out blk') ;
               do _ <- Block.for_each Block.stop_port (Block.buffered_sockets_in blk') ;
               ret blk')).
    { apply emits_bind; [apply emits_for_each; apply emits_stop_port|]. intros _.
      apply emits_bind; [apply emits_for_each; apply emits_stop_port|]. intros _.
      apply emits_ret. }
    destruct (Hstop st1) as (tl & Ht' & Hp' & _).
    exists (evs ++ tl). rewrite Ht', Ht, <- app_assoc. split; [done|].
    apply exec_guarded_split. now apply exec_guarded_app.
  - intros n ins st2 t Hhead Hpoll Ht Hset.
    destruct (for_each_poll_spec fuel (Block.buffered_sockets_in blk)
                (log EvLoop (tick env st)) _ Hpoll) as (polls & Htr & Hpolls & _).
    exists polls. rewrite main_loop_body, Hhead, Hpoll.
    rewrite (flag_monotone t (now st2)) by (lia || done).
    split; [reflexivity|]. simpl in Htr. simpl. rewrite Htr, <- app_assoc.
    split; [reflexivity|exact Hpolls].
Qed.

End Worker.

Lemma exec_only_after_all_inputs_popped_witness :
  let port :=
    Buffered_Socket.mk (Socket_bind (declare "U_K" 2 "int32") 0) IN 8 [[0; 0]] [0%nat] 0 in
  let blk := Block.mk "encode" 1 encode 8 [("U_K", port)] [] in
  let st := {| bufs := [Circular_Buffer.mk [[7; 8]; [0; 0]] 1 0 1 false];
               now := 0; trace := [] |} in
  let late := {| bufs := [Circular_Buffer.mk [[7; 8]; [0; 0]] 1 0 1 false];
                 now := 5; trace := [] |} in
  (exists evs,
     trace (final (Block.execute_task late_stop 4 0 blk st)) = trace st ++ evs /\
     forall pre post,
       evs = pre ++ EvExec :: post ->
       exists before polls,
         pre = before ++ EvLoop :: polls /\
         Forall polling_event polls /\
         polled polls = ["U_K"]) /\
  (exists polls st',
     Block.main_loop late_stop 4 4 0 blk late = Done blk st' /\
     trace st' = EvLoop :: polls /\
     Forall polling_event polls /\
     bufs st' = bufs late).
Proof.
  intros port blk st late.
  assert (Hmono : forall i j, (i <= j)%nat ->
            isDone late_stop i = true -> isDone late_stop j = true).
  { intros i j Hij Hi.
    change (isDone late_stop i) with (6 <=? i)%nat in Hi.
    change (isDone late_stop j) with (6 <=? j)%nat.
    apply Nat.leb_le. apply Nat.leb_le in Hi. lia. }
  split.
  - apply (exec_only_after_all_inputs_popped late_stop Hmono 4 0 blk st).
  - destruct (exec_only_after_all_inputs_popped late_stop Hmono 4 0 blk late) as [_ Hexit].
    destruct (Hexit 3%nat [("U_K", port)]
                {| bufs := bufs late; now := 7; trace := [EvLoop] |} 6%nat)
      as (polls & Hrun & Htr & Hpolls); try reflexivity.
    + simpl. lia.
    + exists polls. eexists. split; [exact Hrun|]. split; [exact Htr|]. split; [exact Hpolls|].
      reflexivity.
Defined.

(** C4, the claim as stated, fails when the flag is cleared again. The
    block has the input ports [U] and [V], each bound to a buffer that holds
    one record, and the flag is set at instant 1 only. The polling loop of
    [U] reads the flag as set and leaves without a [pop]; the loop of [V] and
    the test after the polling read it as clear, and the task is called: the
    worker has seen the flag while polling and has not left the loop, and the
    call comes in a turn in which [U] was not popped, its record still
    waiting in its buffer. *)
Lemma exec_after_flag_cleared :
  let port name b :=
    Buffered_Socket.mk (Socket_bind (declare name 2 "int32") 0) IN 8 [[0; 0]] [b] 0 in
  let blk := Block.mk "check_errors" 1 check_errors 8
               [("U", port "U" 0%nat); ("V", port "V" 1%nat)] [] in
  let st := {| bufs := [Circular_Buffer.mk [[3; 4]; [0; 0]] 1 0 1 false;
                        Circular_Buffer.mk [[5; 6]; [0; 0]] 1 0 1 false];
               now := 0; trace := [] |} in
  let r := Block.execute_task flicker 1 0 blk st in
  Block.poll flicker 1 "U" (port "U" 0%nat) (log EvLoop (tick flicker st)) =
    Done (port "U" 0%nat) (tick flicker (log EvLoop (tick flicker st))) /\
  trace (final r) = [EvLoop; EvTake 1 [5; 6]; EvPop "V" 0; EvExec] /\
  option_map Circular_Buffer.contents (bufs (final r) !! 0%nat) = Some [[3; 4]] /\
  ~ (exists evs,
       trace (final r) = trace st ++ evs /\
       forall pre post,
         evs = pre ++ EvExec :: post ->
         exists before polls,
           pre = before ++ EvLoop :: polls /\
           Forall polling_event polls /\
           polled polls = StdMap.keys (Block.buffered_sockets_in blk)).
Proof.
  intros port blk st r.
  assert (Htrace : trace (final r) = [EvLoop; EvTake 1 [5; 6]; EvPop "V" 0; EvExec])
    by (vm_compute; reflexivity).
  split; [vm_compute; reflexivity|]. split; [exact Htrace|].
  split; [vm_compute; reflexivity|].
  intros (evs & Hevs & Hguard). rewrite Htrace in Hevs. simpl in Hevs. subst evs.
  destruct (Hguard [EvLoop; EvTake 1 [5; 6]; EvPop "V" 0] [] eq_refl)
    as (before & polls & Hpre & _ & Hpolled).
  apply (f_equal polled) in Hpre. rewrite polled_app in Hpre. simpl in Hpre.
  rewrite Hpolled in Hpre. apply (f_equal length) in Hpre.
  rewrite length_app in Hpre. simpl in Hpre. lia.
Qed.


(** * Properties of the fan-out *)

Section Fanout_facts.
Import Fanout.
Variable env : Env.
Variable fuel : nat.
Variable width capacity : nat.
Variables b0 b1 : nat.
Hypothesis distinct : b0 <> b1.

Local Abbreviation queue_ok := (Fanout.queue_ok capacity).
Local Abbreviation producer_ok := (Fanout.producer_ok width b0 b1).
Local Abbreviation fanout_ok := (Fanout.fanout_ok width capacity b0 b1).

Lemma queue_after_push st st' b n seen produced cb cb' r :
  queue_ok st b n seen produced ->
  bufs st !! b = Some cb ->
  Circular_Buffer.try_push cb r = (true, cb') ->
  bufs st' !! b = Some cb' ->
  queue_ok st' b (S n) seen (produced ++ [r]).
Proof.
  intros (cb1 & Hcb1 & Hwf & Hocc & Hcap & Hseen) Hcb Hp Hcb'.
  assert (cb1 = cb) by congruence. subst cb1.
  destruct (Circular_Buffer.is_full cb) eqn:Hf.
  { rewrite try_push_full in Hp by done. discriminate. }
  destruct (try_push_accept cb r Hwf Hf) as (cb2 & Hp2 & Hwf2 & Hc2 & Hcap2 & _).
  assert (cb2 = cb') by congruence. subst cb2.
  exists cb'. split; [done|]. split; [done|].
  split; [|split; [congruence|]].
  - rewrite <- length_contents, Hc2, length_app, length_contents. simpl. lia.
  - rewrite Hc2, app_assoc, Hseen. reflexivity.
Qed.

Lemma queue_frame st st' b n seen produced :
  queue_ok st b n seen produced ->
  bufs st' !! b = bufs st !! b ->
  queue_ok st' b n seen produced.
Proof. intros (cb & Hcb & H) Heq. exists cb. rewrite Heq. auto. Qed.

Lemma produce_step w st n1 n2 produced r :
  fanout_ok w st n1 n2 produced ->
  length r = width ->
  (n1 < capacity)%nat -> (n2 < capacity)%nat ->
  exists w' st',
    act env (S fuel) w (Produce r) st = Done w' st' /\
    fanout_ok w' st' (S n1) (S n2) (produced ++ [r]).
Proof.
  intros (Hout & Hin1 & Hin2 & Hq0 & Hq1) Hr Hn1 Hn2.
  destruct Hout as (Hbuf & Hptr & r1 & r2 & Hdata & Hw1 & Hw2).
  set (out := Block.store_staged (producer w) r).
  assert (Hout_data : Buffered_Socket.socket_data out = [r; r2]).
  { unfold out, Block.store_staged. rewrite Hptr. simpl. now rewrite Hdata. }
  assert (Hout_buf : Buffered_Socket.buffer out = [b0; b1]).
  { unfold out, Block.store_staged. now rewrite Hptr. }
  destruct (push_room env fuel out st r [r2]) as (st' & Hpush & _ & _ & Hin).
  - done.
  - constructor; [congruence|constructor].
  - now rewrite Hout_buf, Hout_data.
  - rewrite Hout_buf. apply NoDup_cons. split; [|apply NoDup_singleton].
    intros H. apply list_elem_of_singleton in H. contradiction.
  - intros b Hb. rewrite Hout_buf in Hb.
    apply elem_of_cons in Hb as [->|Hb]; [|apply list_elem_of_singleton in Hb; subst b].
    + destruct Hq0 as (cb & Hcb & _ & Hocc & Hcap & _). exists cb. split; [done|].
      unfold Circular_Buffer.is_full. apply Nat.eqb_neq. lia.
    + destruct Hq1 as (cb & Hcb & _ & Hocc & Hcap & _). exists cb. split; [done|].
      unfold Circular_Buffer.is_full. apply Nat.eqb_neq. lia.
  - eexists. exists st'. split.
    + unfold act, bindM. fold out. rewrite Hpush. reflexivity.
    + rewrite Hout_buf in Hin.
      destruct (Hin b0 ltac:(left)) as (cb0 & cb0' & Hc0 & Hp0 & Hc0').
      destruct (Hin b1 ltac:(right; left)) as (cb1 & cb1' & Hc1 & Hp1 & Hc1').
      split; [|split; [done|split; [done|split]]].
      * split; [done|]. split; [reflexivity|]. exists r, r. simpl. auto.
      * simpl. eapply queue_after_push; eauto.
      * simpl. eapply queue_after_push; eauto.
Qed.

Lemma drain_step st b n seen produced port :
  consumer_ok port b ->
  queue_ok st b n seen produced ->
  exists rc port' st',
    Buffered_Socket.pop port st = Done (rc, port') st' /\
    consumer_ok port' b /\
    queue_ok st' b (pred n)
      (if rc =? 0 then seen ++ [Block.staged port'] else seen) produced /\
    forall b', b' <> b -> bufs st' !! b' = bufs st !! b'.
Proof.
  intros (Hbuf & r0 & Hdata) (cb & Hcb & Hwf & Hocc & Hcap & Hseen).
  destruct (pop_cases port st b [] cb r0 [] Hbuf Hdata Hcb Hwf)
    as [[He Hpop]|(r & cb' & He & Hwf' & Hc & Hcap' & Hpop)].
  - exists 1, port, st. split; [done|]. split; [split; eauto|]. split; [|done].
    apply Nat.eqb_eq in He. exists cb. simpl. rewrite <- Hocc, He. auto.
  - eexists 0, _, _. split; [exact Hpop|]. split; [split; simpl; eauto|]. split.
    + exists cb'. simpl. split.
      { apply list_lookup_insert_eq. now apply lookup_lt_Some in Hcb. }
      split; [done|]. split; [|split; [congruence|]].
      * rewrite <- Hocc. rewrite <- !length_contents, Hc. simpl. lia.
      * unfold Block.staged. simpl. rewrite <- Hseen, Hc, <- app_assoc. reflexivity.
    + intros b' Hb'. simpl. now apply list_lookup_insert_ne.
Qed.

Lemma run_within_capacity : forall acts w st n1 n2 produced_so_far,
  fanout_ok w st n1 n2 produced_so_far ->
  Forall (of_width width) acts ->
  within_capacity capacity n1 n2 acts = true ->
  exists w' st' n1' n2',
    run env (S fuel) acts w st = Done w' st' /\
    fanout_ok w' st' n1' n2' (produced_so_far ++ produced acts).
Proof.
  induction acts as [|a acts IH]; intros w st n1 n2 sofar Hok Hw Hcap.
  - exists w, st, n1, n2. simpl. rewrite app_nil_r. auto.
  - apply Forall_cons in Hw as [Ha Hw].
    change (run env (S fuel) (a :: acts) w st)
      with (bindM (act env (S fuel) w a) (run env (S fuel) acts) st).
    unfold bindM. destruct a as [r| |]; simpl in Hcap, Ha.
    + apply andb_true_iff in Hcap as [Hroom Hcap].
      apply andb_true_iff in Hroom as [H1 H2].
      apply Nat.ltb_lt in H1, H2.
      destruct (produce_step w st n1 n2 sofar r Hok Ha H1 H2) as (w' & st' & -> & Hok').
      destruct (IH w' st' _ _ _ Hok' Hw Hcap) as (w2 & st2 & m1 & m2 & Hrun & Hok2).
      exists w2, st2, m1, m2. split; [done|].
      simpl. now rewrite <- app_assoc in Hok2.
    + destruct Hok as (Hout & Hin1 & Hin2 & Hq0 & Hq1).
      destruct (drain_step st b0 n1 _ _ _ Hin1 Hq0)
        as (rc & port' & st' & Hpop & Hin1' & Hq0' & Hframe).
      unfold act, bindM. rewrite Hpop.
      destruct (IH {| producer := producer w; first := port'; second := second w;
                      seen_first := if rc =? 0
                                    then seen_first w ++ [Block.staged port']
                                    else seen_first w;
                      seen_second := seen_second w |} st' (pred n1) n2 sofar)
        as (w2 & st2 & m1 & m2 & Hrun & Hok2); [|exact Hw|exact Hcap|].
      * split; [exact Hout|]. split; [exact Hin1'|]. split; [exact Hin2|].
        split; [exact Hq0'|]. simpl. eapply queue_frame; [exact Hq1|].
        apply Hframe. congruence.
      * exists w2, st2, m1, m2. split; [exact Hrun|exact Hok2].
    + destruct Hok as (Hout & Hin1 & Hin2 & Hq0 & Hq1).
      destruct (drain_step st b1 n2 _ _ _ Hin2 Hq1)
        as (rc & port' & st' & Hpop & Hin2' & Hq1' & Hframe).
      unfold act, bindM. rewrite Hpop.
      destruct (IH {| producer := producer w; first := first w; second := port';
                      seen_first := seen_first w;
                      seen_second := if rc =? 0
                                     then seen_second w ++ [Block.staged port']
                                     else seen_second w |} st' n1 (pred n2) sofar)
        as (w2 & st2 & m1 & m2 & Hrun & Hok2); [|exact Hw|exact Hcap|].
      * split; [exact Hout|]. split; [exact Hin1|]. split; [exact Hin2'|].
        split; [|exact Hq1']. simpl. eapply queue_frame; [exact Hq0|].
        apply Hframe. congruence.
      * exists w2, st2, m1, m2. split; [exact Hrun|exact Hok2].
Qed.

End Fanout_facts.

Lemma new_buffer_ready buffer_size n :
  1 <= buffer_size ->
  exists cb, Circular_Buffer.new buffer_size n = Some cb /\
             Circular_Buffer.wf cb /\ Circular_Buffer.occupied cb = 0%nat /\
             Circular_Buffer.capacity cb = Z.to_nat buffer_size /\
             Circular_Buffer.contents cb = [].
Proof.
  intros H.
  destruct (Circular_Buffer.new buffer_size n) as [cb|] eqn:Hnew.
  - exists cb. split; [done|]. split; [eapply new_wf; eauto|].
    destruct (new_fresh _ _ _ Hnew) as (Ho & _ & Hc & _).
    split; [done|]. split; [done|].
    unfold Circular_Buffer.contents. now rewrite Ho.
  - unfold Circular_Buffer.new in Hnew.
    destruct (Z.ltb_spec buffer_size 1); [lia|discriminate].
Qed.

(** C8. An output port with a first consumer attached by [bind] and a second
    one by [bind_cpy] holds two buffers and two staging records, one buffer
    for each consumer; and whatever the order in which the producer pushes
    and the two consumers pop, as long as the producer pushes only while both
    buffers have room, each consumer has been handed a prefix of the records
    produced, in order, and the rest of them waits in its own buffer: both
    are delivered the same sequence. *)
Theorem fan_out_delivers_same_sequence (env : Env) (fuel : nat) (s : Socket)
    (buffer_size : Z) (acts : list Fanout.action) (st : Store) :
  1 <= buffer_size ->
  (0 < fuel)%nat ->
  Forall (Fanout.of_width (n_elmts s)) acts ->
  Fanout.within_capacity (Z.to_nat buffer_size) 0 0 acts = true ->
  let b0 := length (bufs st) in
  let b1 := S (length (bufs st)) in
  exists w st1,
    Fanout.wire s buffer_size st = Done (0, 0, w) st1 /\
    Buffered_Socket.buffer (Fanout.producer w) = [b0; b1] /\
    length (Buffered_Socket.socket_data (Fanout.producer w)) = 2%nat /\
    Buffered_Socket.buffer (Fanout.first w) = [b0] /\
    Buffered_Socket.buffer (Fanout.second w) = [b1] /\
    exists w' st2 q0 q1,
      Fanout.run env fuel acts w st1 = Done w' st2 /\
      bufs st2 !! b0 = Some q0 /\ bufs st2 !! b1 = Some q1 /\
      Fanout.seen_first w' ++ Circular_Buffer.contents q0 = Fanout.produced acts /\
      Fanout.seen_second w' ++ Circular_Buffer.contents q1 = Fanout.produced acts.
Proof.
  intros Hsize Hfuel Hwidth Hcap b0 b1.
  destruct fuel as [|fuel]; [lia|].
  destruct (new_buffer_ready buffer_size (n_elmts s) Hsize)
    as (cb & Hnew & Hwf & Hocc & Hcapacity & Hempty).
  eexists. eexists. split.
  { unfold Fanout.wire, Buffered_Socket.new, Buffered_Socket.bind,
      Buffered_Socket.bind_cpy, Buffered_Socket.create_new_out_buffer,
      Buffered_Socket.get_last_buffer, bindM, new_buf, ret.
    simpl. rewrite Hnew. simpl. rewrite Hnew. simpl. reflexivity. }
  simpl. rewrite length_app. simpl.
  replace (length (bufs st) + 1)%nat with b1 by (unfold b1; lia).
  fold b0.
  split; [reflexivity|]. split; [reflexivity|]. split; [reflexivity|].
  split; [reflexivity|].
  assert (Hb0 : ((bufs st ++ [cb]) ++ [cb]) !! b0 = Some cb).
  { rewrite lookup_app_l by (rewrite length_app; simpl; unfold b0; lia).
    unfold b0. now rewrite list_lookup_middle. }
  assert (Hb1 : ((bufs st ++ [cb]) ++ [cb]) !! b1 = Some cb).
  { apply list_lookup_middle. rewrite length_app. simpl. unfold b1. lia. }
  match goal with
  | |- exists w' st2 q0 q1, Fanout.run _ _ _ ?w ?st1 = _ /\ _ =>
      destruct (run_within_capacity env fuel (n_elmts s) (Z.to_nat buffer_size) b0 b1
                  ltac:(unfold b0, b1; lia) acts w st1 0%nat 0%nat [])
        as (w' & st2 & n1 & n2 & Hrun & Hok); [|exact Hwidth|exact Hcap|]
  end.
  - split; [|split; [|split; [|split]]].
    + split; [reflexivity|]. split; [reflexivity|].
      exists (zero_record (n_elmts s)), (zero_record (n_elmts s)).
      split; [reflexivity|]. unfold zero_record. rewrite length_replicate. auto.
    + split; simpl; eauto.
    + split; simpl; eauto.
    + exists cb. simpl. rewrite Hempty. auto.
    + exists cb. simpl. rewrite Hempty. auto.
  - destruct Hok as (_ & _ & _ & (q0 & Hq0 & _ & _ & _ & Hs0) & (q1 & Hq1 & _ & _ & _ & Hs1)).
    exists w', st2, q0, q1. simpl in Hs0, Hs1. auto.
Qed.

Lemma fan_out_delivers_same_sequence_witness :
  let acts := [Fanout.Produce [1; 2]; Fanout.DrainFirst; Fanout.Produce [3; 4];
               Fanout.DrainFirst; Fanout.DrainFirst; Fanout.DrainSecond;
               Fanout.Produce [5; 6]] in
  exists w st1,
    Fanout.wire (declare "U_K" 2 "int32") 2 empty_store = Done (0, 0, w) st1 /\
    Buffered_Socket.buffer (Fanout.producer w) = [0%nat; 1%nat] /\
    length (Buffered_Socket.socket_data (Fanout.producer w)) = 2%nat /\
    Buffered_Socket.buffer (Fanout.first w) = [0%nat] /\
    Buffered_Socket.buffer (Fanout.second w) = [1%nat] /\
    exists w' st2 q0 q1,
      Fanout.run late_stop 1 acts w st1 = Done w' st2 /\
      bufs st2 !! 0%nat = Some q0 /\ bufs st2 !! 1%nat = Some q1 /\
      Fanout.seen_first w' ++ Circular_Buffer.contents q0 = [[1; 2]; [3; 4]; [5; 6]] /\
      Fanout.seen_second w' ++ Circular_Buffer.contents q1 = [[1; 2]; [3; 4]; [5; 6]].
Proof.
  intros acts.
  apply (fan_out_delivers_same_sequence late_stop 1 (declare "U_K" 2 "int32") 2 acts
           empty_store).
  - lia.
  - lia.
  - repeat constructor.
  - reflexivity.
Defined.

(** * The port maps of a block *)

Section StdMap_facts.
Context {V : Type}.
Implicit Types (m : list (string * V)) (k : string) (v : V).

Lemma find_emplace_new k v m :
  StdMap.find k m = None -> StdMap.find k (StdMap.emplace k v m) = Some v.
Proof.
  induction m as [|[k' v'] m IH]; simpl.
  - now rewrite String.eqb_refl.
  - destruct (String.eqb k k') eqn:E; [discriminate|]. intros H.
    destruct (String.ltb k k'); simpl.
    + now rewrite String.eqb_refl.
    + rewrite E. auto.
Qed.

Lemma find_emplace_other k k' v m :
  k <> k' -> StdMap.find k' (StdMap.emplace k v m) = StdMap.find k' m.
Proof.
  intros Hne. assert (Hk : String.eqb k' k = false) by (apply String.eqb_neq; congruence).
  induction m as [|[k1 v1] m IH]; simpl.
  - now rewrite Hk.
  - destruct (String.eqb k k1) eqn:E; [reflexivity|].
    destruct (String.ltb k k1); simpl.
    + now rewrite Hk.
    + now rewrite IH.
Qed.

Lemma find_update_same k v m :
  StdMap.find k (StdMap.update k v m) =
  match StdMap.find k m with Some _ => Some v | None => None end.
Proof.
  induction m as [|[k1 v1] m IH]; simpl; [reflexivity|].
  destruct (String.eqb k k1) eqn:E; simpl; rewrite E; auto.
Qed.



Lemma find_In k v m : StdMap.find k m = Some v -> In (k, v) m.
Proof.
  induction m as [|[k1 v1] m IH]; simpl; [discriminate|].
  destruct (String.eqb k k1) eqn:E.
  - apply String.eqb_eq in E. intros [= ->]. subst. now left.
  - intros H. right. auto.
Qed.

End StdMap_facts.

Section Construction.

Lemma instantiation_kind d T :
  Block.instantiation d = Some T -> d = type_to_string T.
Proof.
  unfold Block.instantiation.
  repeat match goal with
         | |- context [String.eqb d ?c] =>
             destruct (String.eqb_spec d c) as [->|_]; [now intros [= <-]|]
         end.
  discriminate.
Qed.

Lemma type_to_string_inj T T' : type_to_string T = type_to_string T' -> T = T'.
Proof. destruct T, T'; simpl; intros H; first [reflexivity|discriminate H]. Qed.

Lemma new_port_spec s ty capacity st bs st1 :
  Buffered_Socket.new s ty capacity st = Done bs st1 ->
  port_built s ty capacity st1 bs /\
  now st1 = now st /\ trace st1 = trace st /\
  exists more, bufs st1 = bufs st ++ more.
Proof.
  unfold Buffered_Socket.new, port_built.
  destruct ty; simpl.
  - intros [= <- <-]. simpl. repeat split; auto. exists []. now rewrite app_nil_r.
  - unfold bindM, new_buf.
    destruct (Circular_Buffer.new capacity (n_elmts s)) as [cb|] eqn:Hnew; [|discriminate].
    intros [= <- <-]. simpl. repeat split; eauto.
    exists (length (bufs st)), cb. split; [reflexivity|]. split; [|done].
    now rewrite list_lookup_middle.
  - unfold bindM, new_buf.
    destruct (Circular_Buffer.new capacity (n_elmts s)) as [cb|] eqn:Hnew; [|discriminate].
    intros [= <- <-]. simpl. repeat split; eauto.
    exists (length (bufs st)), cb. split; [reflexivity|]. split; [|done].
    now rewrite list_lookup_middle.
Qed.

Lemma port_built_later s ty capacity st st' bs more :
  port_built s ty capacity st bs -> bufs st' = bufs st ++ more ->
  port_built s ty capacity st' bs.
Proof.
  intros (H1 & H2 & H3 & H4 & H5) Hst. repeat split; auto.
  destruct (Socket_type_eqb ty IN); [done|].
  destruct H5 as (b & cb & Hb & Hcb & Hnew). exists b, cb. repeat split; auto.
  rewrite Hst. now apply lookup_app_l_Some.
Qed.

Lemma make_sockets_step s ty decl capacity ins outs st :
  Block.make_sockets ((s, ty) :: decl) capacity ins outs st =
  match Block.instantiation (datatype_string s) with
  | None => Block.make_sockets decl capacity ins outs st
  | Some _ =>
      match Buffered_Socket.new s ty capacity st with
      | Done bs st1 =>
          if Socket_type_eqb ty IN
          then Block.make_sockets decl capacity (StdMap.emplace (sck_name s) bs ins) outs st1
          else Block.make_sockets decl capacity ins (StdMap.emplace (sck_name s) bs outs) st1
      | Halt w st1 => Halt w st1
      end
  end.
Proof.
  simpl. destruct (Block.instantiation (datatype_string s));
    destruct (Socket_type_eqb ty IN); unfold bindM; try reflexivity;
    destruct (Buffered_Socket.new s ty capacity st); reflexivity.
Qed.

Lemma make_sockets_grows capacity : forall decl ins outs st ins' outs' st',
  Block.make_sockets decl capacity ins outs st = Done (ins', outs') st' ->
  now st' = now st /\ trace st' = trace st /\
  exists more, bufs st' = bufs st ++ more.
Proof.
  induction decl as [|[s ty] decl IH]; intros ins outs st ins' outs' st'.
  - simpl. intros [= <- <- <-]. repeat split; auto. exists []. now rewrite app_nil_r.
  - rewrite make_sockets_step.
    destruct (Block.instantiation (datatype_string s)); [|apply IH].
    destruct (Buffered_Socket.new s ty capacity st) as [bs st1|] eqn:Hnew; [|discriminate].
    apply new_port_spec in Hnew as (_ & Hn & Ht & more1 & Hb).
    intros H.
    assert (Hrest : now st' = now st1 /\ trace st' = trace st1 /\
                    exists more, bufs st' = bufs st1 ++ more).
    { destruct (Socket_type_eqb ty IN); eapply IH; eauto. }
    destruct Hrest as (Hn2 & Ht2 & more2 & Hb2).
    split; [congruence|]. split; [congruence|].
    exists (more1 ++ more2). now rewrite Hb2, Hb, app_assoc.
Qed.

Lemma make_sockets_frame capacity k : forall decl ins outs st ins' outs' st',
  Block.make_sockets decl capacity ins outs st = Done (ins', outs') st' ->
  ~ In k (declared_names decl) ->
  StdMap.find k ins' = StdMap.find k ins /\ StdMap.find k outs' = StdMap.find k outs.
Proof.
  induction decl as [|[s ty] decl IH]; intros ins outs st ins' outs' st'.
  - simpl. now intros [= <- <- <-].
  - rewrite make_sockets_step. simpl. intros H Hk.
    assert (Hne : sck_name s <> k) by tauto.
    assert (Hrest : ~ In k (declared_names decl)) by tauto.
    destruct (Block.instantiation (datatype_string s)); [|eapply IH; eauto].
    destruct (Buffered_Socket.new s ty capacity st) as [bs st1|]; [|discriminate].
    destruct (Socket_type_eqb ty IN);
      destruct (IH _ _ _ _ _ _ H Hrest) as [H1 H2];
      rewrite ?H1, ?H2, ?find_emplace_other by done; auto.
Qed.

(** What the constructor leaves in the maps for one declared socket whose
    name is declared once and is not in the maps yet. *)
Lemma make_sockets_port capacity s ty : forall decl ins outs st ins' outs' st',
  Block.make_sockets decl capacity ins outs st = Done (ins', outs') st' ->
  NoDup (declared_names decl) ->
  In (s, ty) decl ->
  StdMap.find (sck_name s) ins = None ->
  StdMap.find (sck_name s) outs = None ->
  match Block.instantiation (datatype_string s) with
  | None =>
      StdMap.find (sck_name s) ins' = None /\ StdMap.find (sck_name s) outs' = None
  | Some _ =>
      exists bs, port_built s ty capacity st' bs /\
                 if Socket_type_eqb ty IN
                 then StdMap.find (sck_name s) ins' = Some bs /\
                      StdMap.find (sck_name s) outs' = None
                 else StdMap.find (sck_name s) outs' = Some bs /\
                      StdMap.find (sck_name s) ins' = None
  end.
Proof.
  induction decl as [|[s1 ty1] decl IH]; intros ins outs st ins' outs' st' Hrun Hnd Hin Hi Ho.
  - inversion Hin.
  - simpl in Hnd. apply NoDup_cons in Hnd as [Hfresh Hnd].
    rewrite list_elem_of_In in Hfresh.
    rewrite make_sockets_step in Hrun.
    destruct Hin as [[= -> ->]|Hin].
    + (* the head is the socket *)
      destruct (Block.instantiation (datatype_string s)).
      * destruct (Buffered_Socket.new s ty capacity st) as [bs st1|] eqn:Hnew; [|discriminate].
        apply new_port_spec in Hnew as (Hbuilt & _ & _ & _).
        exists bs.
        destruct (Socket_type_eqb ty IN);
          pose proof (make_sockets_grows _ _ _ _ _ _ _ _ Hrun) as (_ & _ & more & Hmore);
          destruct (make_sockets_frame _ _ _ _ _ _ _ _ _ Hrun Hfresh) as [H1 H2];
          (split; [eapply port_built_later; eauto|]);
          rewrite H1, H2, ?find_emplace_new by done; auto.
      * destruct (make_sockets_frame _ _ _ _ _ _ _ _ _ Hrun Hfresh) as [H1 H2].
        now rewrite H1, H2.
    + (* the socket is further down *)
      assert (Hne : sck_name s1 <> sck_name s).
      { intros E. apply Hfresh. rewrite E.
        unfold declared_names. apply in_map_iff. exists (s, ty). auto. }
      destruct (Block.instantiation (datatype_string s1)); [|eapply IH; eauto].
      destruct (Buffered_Socket.new s1 ty1 capacity st) as [bs1 st1|]; [|discriminate].
      destruct (Socket_type_eqb ty1 IN); eapply IH; eauto;
        rewrite find_emplace_other; auto.
Qed.

(** X1. In a block that was constructed from a task whose sockets have
    distinct names, every declared socket of one of the six kinds is found
    by the lookup of its direction under its own kind and under no other,
    and the port found is the one the port constructor builds for it: one
    zero staging record of the socket's width with the socket bound to it,
    no buffer for an input socket, one buffer of the store otherwise. *)
Theorem constructed_port_found (tsk : Task) (capacity n_threads : Z) (st st' : Store)
    (blk : Block.t) (s : Socket) (ty : Socket_type) (T : scalar) :
  Block.new tsk capacity n_threads st = Done blk st' ->
  NoDup (declared_names (sockets tsk)) ->
  In (s, ty) (sockets tsk) ->
  Block.instantiation (datatype_string s) = Some T ->
  exists bs,
    get_buffered_socket ty blk T (sck_name s) = Some bs /\
    port_built s ty capacity st' bs /\
    forall T', T' <> T -> get_buffered_socket ty blk T' (sck_name s) = None.
Proof.
  intros Hnew Hnd Hin Hkind.
  unfold Block.new in Hnew. destruct (n_threads <? 0); [discriminate|].
  unfold bindM in Hnew.
  destruct (Block.make_sockets (sockets tsk) capacity [] [] st) as [[ins outs] st1|] eqn:Hm;
    [|discriminate].
  injection Hnew as <- <-.
  pose proof (make_sockets_port capacity s ty _ _ _ _ _ _ _ Hm Hnd Hin eq_refl eq_refl) as H.
  rewrite Hkind in H. destruct H as (bs & Hbuilt & Hfind).
  assert (Hd : datatype_string (Buffered_Socket.socket bs) = type_to_string T).
  { destruct Hbuilt as (-> & _). simpl. now apply instantiation_kind. }
  exists bs. split; [|split; [done|]].
  - unfold get_buffered_socket, Block.get_buffered_socket_in, Block.get_buffered_socket_out.
    simpl. destruct (Socket_type_eqb ty IN); destruct Hfind as [-> _];
      now rewrite Hd, String.eqb_refl.
  - intros T' HT.
    assert (Hne : String.eqb (type_to_string T) (type_to_string T') = false).
    { apply String.eqb_neq. intros E. apply type_to_string_inj in E. congruence. }
    unfold get_buffered_socket, Block.get_buffered_socket_in, Block.get_buffered_socket_out.
    simpl. destruct (Socket_type_eqb ty IN); destruct Hfind as [-> _];
      now rewrite Hd, Hne.
Qed.

Lemma constructed_port_found_witness :
  exists blk st' bs,
    Block.new encode 8 1 empty_store = Done blk st' /\
    get_buffered_socket OUT blk int32_t "X_N" = Some bs /\
    port_built (declare "X_N" 32 "int32") OUT 8 st' bs /\
    forall T', T' <> int32_t -> get_buffered_socket OUT blk T' "X_N" = None.
Proof.
  destruct (Block.new encode 8 1 empty_store) as [blk st'|] eqn:Hnew;
    [|vm_compute in Hnew; discriminate Hnew].
  destruct (constructed_port_found encode 8 1 empty_store st' blk
              (declare "X_N" 32 "int32") OUT int32_t Hnew) as (bs & H1 & H2 & H3).
  - apply (bool_decide_unpack _). vm_compute. exact I.
  - simpl. auto.
  - reflexivity.
  - exists blk, st', bs. auto.
Defined.

(** X2. A declared socket whose datatype string is none of the six, in a
    task whose sockets have distinct names, has no port in either map of the
    constructed block, and a bind of the block that names it as its own
    socket answers 1 and changes nothing. *)
Theorem unknown_kind_socket_has_no_port (tsk : Task) (capacity n_threads : Z)
    (st st' : Store) (blk : Block.t) (s : Socket) (ty : Socket_type) :
  Block.new tsk capacity n_threads st = Done blk st' ->
  NoDup (declared_names (sockets tsk)) ->
  In (s, ty) (sockets tsk) ->
  Block.instantiation (datatype_string s) = None ->
  StdMap.find (sck_name s) (Block.buffered_sockets_in blk) = None /\
  StdMap.find (sck_name s) (Block.buffered_sockets_out blk) = None /\
  forall dest dest_name st2,
    Block.bind blk (sck_name s) dest dest_name st2 = Done (1, blk) st2.
Proof.
  intros Hnew Hnd Hin Hkind.
  unfold Block.new in Hnew. destruct (n_threads <? 0); [discriminate|].
  unfold bindM in Hnew.
  destruct (Block.make_sockets (sockets tsk) capacity [] [] st) as [[ins outs] st1|] eqn:Hm;
    [|discriminate].
  injection Hnew as <- <-.
  pose proof (make_sockets_port capacity s ty _ _ _ _ _ _ _ Hm Hnd Hin eq_refl eq_refl) as H.
  rewrite Hkind in H. destruct H as [H1 H2]. simpl.
  split; [done|]. split; [done|].
  intros dest dest_name st2. now apply bind_unknown_start.
Qed.

Lemma unknown_kind_socket_has_no_port_witness :
  exists blk st',
    Block.new encode_uint8 8 1 empty_store = Done blk st' /\
    StdMap.find "X_N" (Block.buffered_sockets_in blk) = None /\
    StdMap.find "X_N" (Block.buffered_sockets_out blk) = None /\
    forall dest dest_name st2,
      Block.bind blk "X_N" dest dest_name st2 = Done (1, blk) st2.
Proof.
  destruct (Block.new encode_uint8 8 1 empty_store) as [blk st'|] eqn:Hnew;
    [|vm_compute in Hnew; discriminate Hnew].
  exists blk, st'. split; [reflexivity|].
  apply (unknown_kind_socket_has_no_port encode_uint8 8 1 empty_store st' blk
           (declare "X_N" 32 "uint8") OUT Hnew).
  - apply (bool_decide_unpack _). vm_compute. exact I.
  - simpl. auto.
  - reflexivity.
Defined.

(** X3. The constructor passes over the declared sockets it has no
    instantiation for without a word: the maps and the store it produces,
    and its failure if it fails, are those of the same declarations with
    these sockets taken out. *)
Theorem unsupported_sockets_are_skipped (capacity : Z) :
  forall decl ins outs st,
    Block.make_sockets decl capacity ins outs st =
    Block.make_sockets (List.filter supported decl) capacity ins outs st.
Proof.
  induction decl as [|[s ty] decl IH]; intros ins outs st; [reflexivity|].
  assert (Hs : supported (s, ty) =
               match Block.instantiation (datatype_string s) with
               | Some _ => true | None => false end) by reflexivity.
  cbn [List.filter]. rewrite Hs.
  destruct (Block.instantiation (datatype_string s)) eqn:Hk.
  - rewrite !make_sockets_step, Hk.
    destruct (Buffered_Socket.new s ty capacity st); [|reflexivity].
    destruct (Socket_type_eqb ty IN); apply IH.
  - rewrite make_sockets_step, Hk. apply IH.
Qed.

End Construction.

(** * Binding through the block *)

Section Binding.





(** X5. [bind] shares, it does not copy: two input ports bound to the same
    output port hold the same buffer, and a record pushed by the producer is
    received by the port that pops first; the pop of the other port answers
    1 and changes nothing. *)
Theorem shared_buffer_delivers_once (env : Env) (fuel : nat)
    (prod in1 in2 : Buffered_Socket.t) (st : Store) (b : nat)
    (cb : Circular_Buffer.t) (r r1 r2 : record) :
  Buffered_Socket.buffer prod = [b] ->
  Buffered_Socket.socket_data prod = [r] ->
  Buffered_Socket.buffer in1 = [] ->
  Buffered_Socket.socket_data in1 = [r1] ->
  Buffered_Socket.buffer in2 = [] ->
  Buffered_Socket.socket_data in2 = [r2] ->
  bufs st !! b = Some cb ->
  Circular_Buffer.wf cb ->
  Circular_Buffer.occupied cb = 0%nat ->
  exists in1' in2' prod' st1 in1'' st2,
    Buffered_Socket.bind in1 (Some prod) st = Done (0, in1') st /\
    Buffered_Socket.bind in2 (Some prod) st = Done (0, in2') st /\
    Buffered_Socket.buffer in1' = [b] /\
    Buffered_Socket.buffer in2' = [b] /\
    Buffered_Socket.push env (S fuel) prod st = Done (0, prod') st1 /\
    Buffered_Socket.pop in1' st1 = Done (0, in1'') st2 /\
    Block.staged in1'' = r /\
    Buffered_Socket.pop in2' st2 = Done (1, in2') st2.
Proof.
  intros Hpb Hpd Hb1 Hd1 Hb2 Hd2 Hcb Hwf Hocc.
  assert (Hroom : Circular_Buffer.is_full cb = false).
  { unfold Circular_Buffer.is_full. rewrite Hocc. apply Nat.eqb_neq.
    destruct Hwf as [Hc _ _ _]. lia. }
  assert (Hempty : Circular_Buffer.contents cb = []).
  { unfold Circular_Buffer.contents. now rewrite Hocc. }
  destruct (push_room env fuel prod st r [] Hpd) as (st1 & Hpush & _ & _ & Hin).
  { constructor. }
  { now rewrite Hpb, Hpd. }
  { rewrite Hpb. apply NoDup_singleton. }
  { intros b' Hb'. rewrite Hpb in Hb'. apply list_elem_of_singleton in Hb'. subst b'. eauto. }
  destruct (Hin b) as (cb0 & cb1 & Hcb0 & Hp & Hcb1).
  { rewrite Hpb. now left. }
  assert (cb0 = cb) by congruence. subst cb0.
  destruct (try_push_accept cb r Hwf Hroom) as (cb1' & Hp' & Hwf1 & Hc1 & _).
  assert (cb1' = cb1) by congruence. subst cb1'.
  rewrite Hempty in Hc1. simpl in Hc1.
  set (in1' := Buffered_Socket.with_buffer in1 (Buffered_Socket.buffer in1 ++ [b])).
  set (in2' := Buffered_Socket.with_buffer in2 (Buffered_Socket.buffer in2 ++ [b])).
  assert (Hb1' : Buffered_Socket.buffer in1' = [b]) by (simpl; now rewrite Hb1).
  assert (Hb2' : Buffered_Socket.buffer in2' = [b]) by (simpl; now rewrite Hb2).
  destruct (pop_cases in1' st1 b [] cb1 r1 [] Hb1' Hd1 Hcb1 Hwf1)
    as [[He _]|(r' & cb2 & _ & Hwf2 & Hc2 & _ & Hpop1)].
  { apply Nat.eqb_eq in He. rewrite <- length_contents, Hc1 in He. discriminate. }
  rewrite Hc1 in Hc2. injection Hc2 as <- Hc2.
  set (st2 := {| bufs := <[b := cb2]> (bufs st1); now := now st1;
                 trace := trace st1 ++ [EvTake b r] |}) in *.
  assert (Hcb2 : bufs st2 !! b = Some cb2).
  { simpl. apply list_lookup_insert_eq. now apply lookup_lt_Some in Hcb1. }
  destruct (pop_cases in2' st2 b [] cb2 r2 [] Hb2' Hd2 Hcb2 Hwf2)
    as [[_ Hpop2]|(r' & cb3 & He & _)].
  2:{ apply Nat.eqb_neq in He. rewrite <- length_contents, <- Hc2 in He. now contradiction He. }
  exists in1', in2'. eexists. exists st1. eexists. exists st2.
  split; [|split; [|split; [done|split; [done|split; [exact Hpush|]]]]].
  - unfold Buffered_Socket.bind, Buffered_Socket.get_last_buffer. now rewrite Hpb.
  - unfold Buffered_Socket.bind, Buffered_Socket.get_last_buffer. now rewrite Hpb.
  - split; [exact Hpop1|]. split; [reflexivity|exact Hpop2].
Qed.

Lemma shared_buffer_delivers_once_witness :
  let port ty bf := Buffered_Socket.mk (Socket_bind (declare "U_K" 2 "int32") 0) ty 2
                      [[7; 8]] bf 0 in
  let st := {| bufs := [Circular_Buffer.mk [[0; 0]; [0; 0]] 0 0 0 false];
               now := 0; trace := [] |} in
  exists in1' in2' prod' st1 in1'' st2,
    Buffered_Socket.bind (port IN []) (Some (port OUT [0%nat])) st = Done (0, in1') st /\
    Buffered_Socket.bind (port IN []) (Some (port OUT [0%nat])) st = Done (0, in2') st /\
    Buffered_Socket.buffer in1' = [0%nat] /\
    Buffered_Socket.buffer in2' = [0%nat] /\
    Buffered_Socket.push never_stop 1 (port OUT [0%nat]) st = Done (0, prod') st1 /\
    Buffered_Socket.pop in1' st1 = Done (0, in1'') st2 /\
    Block.staged in1'' = [7; 8] /\
    Buffered_Socket.pop in2' st2 = Done (1, in2') st2.
Proof.
  intros port st.
  apply (shared_buffer_delivers_once never_stop 0 (port OUT [0%nat]) (port IN [])
           (port IN []) st 0%nat (Circular_Buffer.mk [[0; 0]; [0; 0]] 0 0 0 false)
           [7; 8] [7; 8] [7; 8]); try reflexivity.
  split; unfold Circular_Buffer.capacity; simpl; first [lia | reflexivity].
Defined.



End Binding.

(** * The bookkeeping of the buffers *)

Section Bookkeeping.

Lemma wf_try_push cb r : Circular_Buffer.wf cb -> Circular_Buffer.wf (snd (Circular_Buffer.push cb r)).
Proof.
  intros Hwf. unfold Circular_Buffer.push.
  destruct (Circular_Buffer.is_full cb) eqn:Hf.
  - now rewrite try_push_full.
  - destruct (try_push_accept cb r Hwf Hf) as (cb' & -> & Hwf' & _). exact Hwf'.
Qed.

Lemma wf_try_pop cb out : Circular_Buffer.wf cb -> Circular_Buffer.wf (snd (Circular_Buffer.pop cb out)).
Proof.
  intros Hwf. unfold Circular_Buffer.pop.
  destruct (Circular_Buffer.is_empty cb) eqn:He.
  - now rewrite try_pop_empty.
  - destruct (try_pop_deliver cb Hwf He) as (r & cb' & -> & Hwf' & _). exact Hwf'.
Qed.

Lemma wf_stop cb : Circular_Buffer.wf cb -> Circular_Buffer.wf (Circular_Buffer.stop cb).
Proof. intros [H1 H2 H3 H4]. split; assumption. Qed.

Lemma wf_reset cb : Circular_Buffer.wf cb -> Circular_Buffer.wf (Circular_Buffer.reset cb).
Proof.
  intros [H1 H2 H3 H4]. split; unfold Circular_Buffer.capacity in *; simpl; try lia.
  symmetry. apply Nat.mod_small. lia.
Qed.

Lemma keeps_ret A (a : A) : keeps store_ok (ret a).
Proof. intros st H. exact H. Qed.

Lemma keeps_stuck A w : keeps store_ok (@stuck A w).
Proof. intros st H. exact H. Qed.

Lemma keeps_emit e : keeps store_ok (emit e).
Proof. intros st H. exact H. Qed.

Lemma keeps_at_index A (l : list A) i : keeps store_ok (at_index l i).
Proof. unfold at_index. destruct (l !! i); [apply keeps_ret|apply keeps_stuck]. Qed.

Lemma keeps_set_buf b cb : Circular_Buffer.wf cb -> keeps store_ok (set_buf b cb).
Proof. intros Hwf st H. unfold store_ok in *. simpl. now apply Forall_insert. Qed.

Lemma keeps_new_buf capacity n : keeps store_ok (new_buf capacity n).
Proof.
  intros st H. unfold new_buf.
  destruct (Circular_Buffer.new capacity n) as [cb|] eqn:Hnew; [|exact H].
  unfold store_ok in *. simpl. apply Forall_app. split; [exact H|].
  constructor; [|constructor]. eapply new_wf; eauto.
Qed.

Lemma keeps_bind A B (m : M A) (k : A -> M B) :
  keeps store_ok m -> (forall a, keeps store_ok (k a)) -> keeps store_ok (bindM m k).
Proof.
  intros Hm Hk st H. specialize (Hm st H). unfold bindM.
  destruct (m st) as [a st1|w st1]; simpl in *; [now apply Hk|exact Hm].
Qed.

(** What is read through a pointer into a good store is a good buffer. *)
Lemma keeps_get_buf B b (k : Circular_Buffer.t -> M B) :
  (forall cb, Circular_Buffer.wf cb -> keeps store_ok (k cb)) ->
  keeps store_ok (bindM (get_buf b) k).
Proof.
  intros Hk st H. unfold bindM, get_buf.
  destruct (bufs st !! b) as [cb|] eqn:Hb; [|exact H].
  apply Hk; [|exact H]. unfold store_ok in H.
  rewrite Forall_forall in H. apply H.
  eapply list_elem_of_lookup_2; eauto.
Qed.

Lemma keeps_for_each_buffer f :
  (forall cb, Circular_Buffer.wf cb -> Circular_Buffer.wf (f cb)) ->
  forall bf, keeps store_ok (Buffered_Socket.for_each_buffer f bf).
Proof.
  intros Hf. induction bf as [|b bf IH]; simpl; [apply keeps_ret|].
  apply keeps_get_buf. intros cb Hwf.
  apply keeps_bind; [apply keeps_set_buf; auto|]. intros _. exact IH.
Qed.

Lemma keeps_pop bs : keeps store_ok (Buffered_Socket.pop bs).
Proof.
  unfold Buffered_Socket.pop.
  apply keeps_bind; [apply keeps_at_index|]. intros b.
  apply keeps_get_buf. intros cb Hwf.
  apply keeps_bind; [apply keeps_at_index|]. intros r0.
  pose proof (wf_try_pop cb r0 Hwf) as Hwf'.
  destruct (Circular_Buffer.pop cb r0) as [[rc r] cb']. simpl in Hwf'.
  apply keeps_bind; [now apply keeps_set_buf|]. intros _.
  destruct (rc =? 1); [apply keeps_ret|].
  apply keeps_bind; [apply keeps_emit|]. intros _. apply keeps_ret.
Qed.

Lemma keeps_copy_from : forall src j dst, keeps store_ok (Buffered_Socket.copy_from j src dst).
Proof.
  induction src as [|x src IH]; intros j dst; simpl; [apply keeps_ret|].
  destruct (j <? length dst)%nat; [apply IH|apply keeps_stuck].
Qed.

Lemma keeps_copy_to_all r0 others : keeps store_ok (Buffered_Socket.copy_to_all r0 others).
Proof.
  induction others as [|r others IH]; simpl; [apply keeps_ret|].
  apply keeps_bind; [apply keeps_copy_from|]. intros r'.
  apply keeps_bind; [exact IH|]. intros rest. apply keeps_ret.
Qed.

Lemma keeps_create_new_out_buffer bs :
  keeps store_ok (Buffered_Socket.create_new_out_buffer bs).
Proof.
  unfold Buffered_Socket.create_new_out_buffer.
  destruct (Socket_type_eqb _ _); [apply keeps_stuck|].
  apply keeps_bind; [apply keeps_new_buf|]. intros b. apply keeps_ret.
Qed.

Lemma keeps_bind_cpy this s : keeps store_ok (Buffered_Socket.bind_cpy this s).
Proof.
  unfold Buffered_Socket.bind_cpy.
  destruct (negb _); [apply keeps_stuck|].
  destruct s as [s|]; [|apply keeps_stuck].
  destruct (Buffered_Socket.get_last_buffer s); [|apply keeps_ret].
  apply keeps_bind; [apply keeps_create_new_out_buffer|]. intros s'.
  destruct (Buffered_Socket.get_last_buffer s'); [apply keeps_ret|apply keeps_stuck].
Qed.

Lemma keeps_port_new s ty capacity : keeps store_ok (Buffered_Socket.new s ty capacity).
Proof.
  unfold Buffered_Socket.new. destruct (_ || _); [|apply keeps_ret].
  apply keeps_bind; [apply keeps_new_buf|]. intros b. apply keeps_ret.
Qed.

Lemma keeps_make_sockets capacity : forall decl ins outs,
  keeps store_ok (Block.make_sockets decl capacity ins outs).
Proof.
  induction decl as [|[s ty] decl IH]; intros ins outs; simpl; [apply keeps_ret|].
  destruct (Socket_type_eqb ty IN); destruct (Block.instantiation _); try apply IH;
    (apply keeps_bind; [apply keeps_port_new|]); intros bs; apply IH.
Qed.

Lemma keeps_for_each body :
  (forall k bs, keeps store_ok (body k bs)) ->
  forall m, keeps store_ok (Block.for_each body m).
Proof.
  intros Hbody. induction m as [|[k bs] m IH]; simpl; [apply keeps_ret|].
  apply keeps_bind; [apply Hbody|]. intros bs'.
  apply keeps_bind; [exact IH|]. intros m'. apply keeps_ret.
Qed.

Lemma keeps_stop_port k bs : keeps store_ok (Block.stop_port k bs).
Proof.
  unfold Block.stop_port, Buffered_Socket.stop.
  apply keeps_bind; [apply keeps_for_each_buffer, wf_stop|]. intros _.
  apply keeps_bind; [apply keeps_emit|]. intros _. apply keeps_ret.
Qed.

Variable env : Env.
Hypothesis env_ok : peers_ok env.

Lemma keeps_yield : keeps store_ok (yield env).
Proof. intros st H. unfold store_ok in *. simpl. now apply env_ok. Qed.

Lemma keeps_read_isDone : keeps store_ok (read_isDone env).
Proof. intros st H. unfold store_ok in *. simpl. now apply env_ok. Qed.

Lemma keeps_retry_push fuel b r : keeps store_ok (Buffered_Socket.retry_push env fuel b r).
Proof.
  induction fuel as [|fuel IH]; simpl; [apply keeps_stuck|].
  apply keeps_get_buf. intros cb Hwf.
  pose proof (wf_try_push cb r Hwf) as Hwf'.
  destruct (Circular_Buffer.push cb r) as [rc cb']. simpl in Hwf'.
  apply keeps_bind; [now apply keeps_set_buf|]. intros _.
  destruct (rc =? 1); [|apply keeps_emit].
  apply keeps_bind; [apply keeps_yield|]. intros _. exact IH.
Qed.

Lemma keeps_push_each fuel sd : forall bf i,
  keeps store_ok (Buffered_Socket.push_each env fuel i bf sd).
Proof.
  induction bf as [|b bf IH]; intros i; simpl; [apply keeps_ret|].
  apply keeps_bind; [apply keeps_at_index|]. intros r.
  apply keeps_bind; [apply keeps_retry_push|]. intros _. apply IH.
Qed.

Lemma keeps_push fuel bs : keeps store_ok (Buffered_Socket.push env fuel bs).
Proof.
  unfold Buffered_Socket.push. apply keeps_bind.
  - unfold Buffered_Socket.replicate_record_0.
    destruct (Buffered_Socket.socket_data bs); [apply keeps_ret|].
    apply keeps_bind; [apply keeps_copy_to_all|]. intros others. apply keeps_ret.
  - intros sd. apply keeps_bind; [apply keeps_push_each|]. intros _. apply keeps_ret.
Qed.

Lemma keeps_poll k : forall fuel bs, keeps store_ok (Block.poll env fuel k bs).
Proof.
  induction fuel as [|fuel IH]; intros bs; simpl; [apply keeps_stuck|].
  apply keeps_bind; [apply keeps_read_isDone|]. intros [|]; [apply keeps_ret|].
  apply keeps_bind; [apply keeps_pop|]. intros [rc bs'].
  apply keeps_bind; [apply keeps_emit|]. intros _.
  destruct (rc =? 0); [apply keeps_ret|apply IH].
Qed.

Lemma keeps_deliver fuel k : forall n bs, keeps store_ok (Block.deliver env fuel n k bs).
Proof.
  induction n as [|n IH]; intros bs; simpl; [apply keeps_stuck|].
  apply keeps_bind; [apply keeps_read_isDone|]. intros [|]; [apply keeps_ret|].
  apply keeps_bind; [apply keeps_push|]. intros [rc bs'].
  apply keeps_bind; [apply keeps_emit|]. intros _.
  destruct (rc =? 0); [apply keeps_ret|apply IH].
Qed.

Lemma keeps_exec task_id blk : keeps store_ok (Block.exec task_id blk).
Proof.
  unfold Block.exec. destruct (_ && _); [|apply keeps_stuck].
  apply keeps_bind; [apply keeps_emit|]. intros _. apply keeps_ret.
Qed.

Lemma keeps_main_loop fuel task_id : forall n blk,
  keeps store_ok (Block.main_loop env fuel n task_id blk).
Proof.
  induction n as [|n IH]; intros blk; simpl; [apply keeps_stuck|].
  apply keeps_bind; [apply keeps_read_isDone|]. intros [|]; [apply keeps_ret|].
  apply keeps_bind; [apply keeps_emit|]. intros _.
  apply keeps_bind; [apply keeps_for_each; intros; apply keeps_poll|]. intros ins.
  apply keeps_bind; [apply keeps_read_isDone|]. intros [|]; [apply keeps_ret|].
  apply keeps_bind; [apply keeps_exec|]. intros blk'.
  apply keeps_bind; [apply keeps_for_each; intros; apply keeps_deliver|]. intros outs.
  apply IH.
Qed.

(** X7. The bookkeeping of the buffers (at least one slot, occupied count
    within the capacity, cursors in step with it) is kept by everything the
    block does: building a block, binding, resetting, and a whole run of a
    worker, however the run ends, as long as the threads at the other end of
    the buffers keep it too. *)
Theorem bookkeeping_is_kept (fuel : nat) (task_id : Z) (blk dest : Block.t)
    (tsk : Task) (capacity n_threads : Z) (start dest_name : string) (st : Store) :
  store_ok st ->
  store_ok (final (Block.execute_task env fuel task_id blk st)) /\
  store_ok (final (Block.new tsk capacity n_threads st)) /\
  store_ok (final (Block.bind blk start dest dest_name st)) /\
  store_ok (final (Block.reset blk st)).
Proof.
  intros Hst. split; [|split; [|split]].
  - revert st Hst. change (keeps store_ok (Block.execute_task env fuel task_id blk)).
    unfold Block.execute_task.
    apply keeps_bind; [apply keeps_main_loop|]. intros blk'.
    apply keeps_bind; [apply keeps_for_each, keeps_stop_port|]. intros _.
    apply keeps_bind; [apply keeps_for_each, keeps_stop_port|]. intros _.
    apply keeps_ret.
  - revert st Hst. change (keeps store_ok (Block.new tsk capacity n_threads)).
    unfold Block.new. destruct (n_threads <? 0); [apply keeps_stuck|].
    apply keeps_bind; [apply keeps_make_sockets|]. intros [ins outs]. apply keeps_ret.
  - revert st Hst. change (keeps store_ok (Block.bind blk start dest dest_name)).
    unfold Block.bind.
    generalize [int8_t; int16_t; int32_t; int64_t; float; double].
    induction l as [|T Ts IH]; simpl; [apply keeps_ret|].
    destruct (Block.get_buffered_socket_in blk T start) as [sck|]; [|exact IH].
    apply keeps_bind; [|intros [rc sck']; apply keeps_ret].
    unfold Buffered_Socket.bind.
    destruct (Block.get_buffered_socket_out dest T dest_name) as [s|]; [|apply keeps_stuck].
    destruct (Buffered_Socket.get_last_buffer s); apply keeps_ret.
  - revert st Hst. change (keeps store_ok (Block.reset blk)).
    unfold Block.reset.
    assert (Hbody : forall (k : string) bs,
              keeps store_ok (do _ <- Buffered_Socket.reset bs ; ret bs)).
    { intros k bs. apply keeps_bind; [|intros _; apply keeps_ret].
      apply keeps_for_each_buffer, wf_reset. }
    apply keeps_bind; [apply keeps_for_each, Hbody|]. intros _.
    apply keeps_bind; [apply keeps_for_each, Hbody|]. intros _.
    apply keeps_ret.
Qed.

End Bookkeeping.

Lemma bookkeeping_is_kept_witness :
  let st := {| bufs := [Circular_Buffer.mk [[0; 0]] 0 0 0 false]; now := 0; trace := [] |} in
  let port := Buffered_Socket.mk (Socket_bind (declare "U_K" 2 "int32") 0) OUT 1
                [[0; 0]] [0%nat] 0 in
  let blk := Block.mk "generate" 1 generate 1 [] [("U_K", port)] in
  store_ok (final (Block.execute_task late_stop 9 0 blk st)) /\
  store_ok (final (Block.new encode 8 1 st)) /\
  store_ok (final (Block.bind blk "U_K" blk "U_K" st)) /\
  store_ok (final (Block.reset blk st)).
Proof.
  intros st port blk.
  apply (bookkeeping_is_kept late_stop).
  - intros t h H. exact H.
  - repeat constructor; unfold Circular_Buffer.capacity; simpl; lia.
Defined.

(** * Stopping and resetting *)

Section Forwarding.

Lemma bind_done {A B} (m : M A) (k : A -> M B) st a st1 :
  m st = Done a st1 -> bindM m k st = k a st1.
Proof. intros H. unfold bindM. now rewrite H. Qed.

Lemma carried_refl P st : carried P st st.
Proof. intros b cb H. eauto. Qed.

Lemma carried_trans P st1 st2 st3 :
  carried P st1 st2 -> carried P st2 st3 -> carried P st1 st3.
Proof.
  intros H12 H23 b cb Hb. destruct (H12 b cb Hb) as (cb2 & Hb2 & Hp2).
  destruct (H23 b cb2 Hb2) as (cb3 & Hb3 & Hp3). eauto.
Qed.

Lemma all_buffers_carried P st st' m :
  all_buffers P st m -> carried P st st' -> all_buffers P st' m.
Proof.
  intros Hall Hc k bs b Hk Hb. destruct (Hall k bs b Hk Hb) as (cb & Hcb & Hp).
  destruct (Hc b cb Hcb) as (cb' & Hcb' & Hp'). eauto.
Qed.

Lemma for_each_buffer_step f b bf st :
  Buffered_Socket.for_each_buffer f (b :: bf) st =
  match bufs st !! b with
  | Some cb =>
      Buffered_Socket.for_each_buffer f bf
        {| bufs := <[b := f cb]> (bufs st); now := now st; trace := trace st |}
  | None => Halt (Fault NullDeref) st
  end.
Proof. simpl. unfold bindM, get_buf. now destruct (bufs st !! b). Qed.

(** A forwarded call that returns has applied [f] to every buffer of the
    port, has touched no other buffer and nothing else of the store. *)
Lemma for_each_buffer_marks f (P : Circular_Buffer.t -> Prop) :
  (forall cb, P (f cb)) ->
  forall bf st st',
    Buffered_Socket.for_each_buffer f bf st = Done tt st' ->
    now st' = now st /\ trace st' = trace st /\ carried P st st' /\
    forall b, In b bf -> exists cb, bufs st' !! b = Some cb /\ P cb.
Proof.
  intros Hf. induction bf as [|b bf IH]; intros st st'.
  - simpl. intros [= <-]. repeat split; auto using carried_refl. intros b [].
  - rewrite for_each_buffer_step. destruct (bufs st !! b) as [cb|] eqn:Hb; [|discriminate].
    intros Hrun. apply IH in Hrun as (Hn & Ht & Hc & Hin). simpl in Hn, Ht.
    assert (Hc1 : carried P st {| bufs := <[b := f cb]> (bufs st); now := now st;
                                  trace := trace st |}).
    { intros b' cb' Hb'. simpl. destruct (decide (b = b')) as [<-|Hne].
      - exists (f cb). split; [|auto]. apply list_lookup_insert_eq.
        now apply lookup_lt_Some in Hb.
      - exists cb'. split; [|auto]. now rewrite list_lookup_insert_ne. }
    split; [done|]. split; [done|]. split; [eapply carried_trans; eauto|].
    intros b' [<-|Hb']; [|auto].
    destruct (Hc b (f cb)) as (cb' & Hcb' & Hp); [|eauto].
    simpl. apply list_lookup_insert_eq. now apply lookup_lt_Some in Hb.
Qed.

(** With valid pointers the forwarded call returns. *)
Lemma for_each_buffer_returns f : forall bf st,
  (forall b, In b bf -> is_Some (bufs st !! b)) ->
  exists st', Buffered_Socket.for_each_buffer f bf st = Done tt st'.
Proof.
  induction bf as [|b bf IH]; intros st Hvalid; [simpl; eauto|].
  rewrite for_each_buffer_step.
  destruct (Hvalid b ltac:(now left)) as [cb Hb]. rewrite Hb.
  apply IH. intros b' Hb'. simpl.
  apply lookup_lt_is_Some. rewrite length_insert. apply lookup_lt_is_Some.
  apply Hvalid. now right.
Qed.

Lemma for_each_marks body (P : Circular_Buffer.t -> Prop) (tr : string -> list event) :
  (forall k bs st bs' st',
      body k bs st = Done bs' st' ->
      bs' = bs /\ now st' = now st /\ trace st' = trace st ++ tr k /\
      carried P st st' /\
      forall b, In b (Buffered_Socket.buffer bs) ->
                exists cb, bufs st' !! b = Some cb /\ P cb) ->
  forall m st m' st',
    Block.for_each body m st = Done m' st' ->
    m' = m /\ now st' = now st /\
    trace st' = trace st ++ concat (map (fun kb => tr (fst kb)) m) /\
    carried P st st' /\ all_buffers P st' m.
Proof.
  intros Hbody. induction m as [|[k bs] m IH]; intros st m' st'.
  - simpl. intros [= <- <-]. rewrite app_nil_r.
    repeat split; auto using carried_refl. intros k bs b [].
  - rewrite for_each_cons.
    destruct (body k bs st) as [bs1 st1|] eqn:Hb; [|discriminate].
    destruct (Block.for_each body m st1) as [m1 st2|] eqn:Hm; [|discriminate].
    intros [= <- <-].
    apply Hbody in Hb as (-> & Hn1 & Ht1 & Hc1 & Hin1).
    apply IH in Hm as (-> & Hn2 & Ht2 & Hc2 & Hall2).
    split; [done|]. split; [congruence|]. split; [|split].
    + simpl. rewrite Ht2, Ht1, <- app_assoc. reflexivity.
    + eapply carried_trans; eauto.
    + intros k' bs' b [[= <- <-]|Hk] Hbuf.
      * destruct (Hin1 b Hbuf) as (cb & Hcb & Hp).
        destruct (Hc2 b cb Hcb) as (cb' & Hcb' & Hp'). eauto.
      * eapply Hall2; eauto.
Qed.

Lemma stop_port_marks k bs st bs' st' :
  Block.stop_port k bs st = Done bs' st' ->
  bs' = bs /\ now st' = now st /\ trace st' = trace st ++ [EvStop k] /\
  carried (fun cb => Circular_Buffer.stopped cb = true) st st' /\
  forall b, In b (Buffered_Socket.buffer bs) ->
            exists cb, bufs st' !! b = Some cb /\ Circular_Buffer.stopped cb = true.
Proof.
  unfold Block.stop_port, Buffered_Socket.stop, bindM.
  destruct (Buffered_Socket.for_each_buffer Circular_Buffer.stop
              (Buffered_Socket.buffer bs) st) as [[] st1|] eqn:Hrun; [|discriminate].
  simpl. intros [= <- <-].
  apply (for_each_buffer_marks _ (fun cb => Circular_Buffer.stopped cb = true)) in Hrun
    as (Hn & Ht & Hc & Hin); [|reflexivity].
  simpl. rewrite Ht. repeat split; auto.
Qed.

Lemma concat_stop_events (m : list (string * Buffered_Socket.t)) :
  concat (map (fun kb => [EvStop (fst kb)]) m) = map EvStop (StdMap.keys m).
Proof. unfold StdMap.keys. induction m as [|[k bs] m IH]; simpl; [done|]. now rewrite IH. Qed.

(** X8. A worker that returns has stopped every buffer of every port of
    its block, the buffers it shares with the neighbouring blocks included:
    after the main loop it stops the output ports in the order of the map,
    then the input ports, and does nothing else. *)
Theorem worker_stops_every_buffer (env : Env) (fuel : nat) (task_id : Z)
    (blk blk' : Block.t) (st st' : Store) :
  Block.execute_task env fuel task_id blk st = Done blk' st' ->
  exists st1,
    Block.main_loop env fuel fuel task_id blk st = Done blk' st1 /\
    trace st' = trace st1 ++ map EvStop (StdMap.keys (Block.buffered_sockets_out blk'))
                          ++ map EvStop (StdMap.keys (Block.buffered_sockets_in blk')) /\
    now st' = now st1 /\
    all_buffers (fun cb => Circular_Buffer.stopped cb = true) st'
                (Block.buffered_sockets_out blk') /\
    all_buffers (fun cb => Circular_Buffer.stopped cb = true) st'
                (Block.buffered_sockets_in blk').
Proof.
  unfold Block.execute_task, bindM.
  destruct (Block.main_loop env fuel fuel task_id blk st) as [blk1 st1|]; [|discriminate].
  destruct (Block.for_each Block.stop_port (Block.buffered_sockets_out blk1) st1)
    as [m1 st2|] eqn:Hout; [|discriminate].
  destruct (Block.for_each Block.stop_port (Block.buffered_sockets_in blk1) st2)
    as [m2 st3|] eqn:Hin; [|discriminate].
  intros [= <- <-]. exists st1. split; [reflexivity|].
  apply (for_each_marks _ _ (fun k => [EvStop k]) stop_port_marks) in Hout
    as (_ & Hn1 & Ht1 & _ & Hall1).
  apply (for_each_marks _ _ (fun k => [EvStop k]) stop_port_marks) in Hin
    as (_ & Hn2 & Ht2 & Hc2 & Hall2).
  rewrite concat_stop_events in Ht1, Ht2.
  split; [now rewrite Ht2, Ht1, <- app_assoc|]. split; [congruence|].
  split; [eapply all_buffers_carried; eauto|exact Hall2].
Qed.

Lemma worker_stops_every_buffer_witness :
  let st := {| bufs := [Circular_Buffer.mk [[0; 0]] 0 0 0 false]; now := 6; trace := [] |} in
  let port := Buffered_Socket.mk (Socket_bind (declare "U_K" 2 "int32") 0) OUT 1
                [[0; 0]] [0%nat] 0 in
  let blk := Block.mk "generate" 1 generate 1 [] [("U_K", port)] in
  let st' := {| bufs := [Circular_Buffer.mk [[0; 0]] 0 0 0 true]; now := 7;
                trace := [EvStop "U_K"] |} in
  exists st1,
    Block.main_loop late_stop 1 1 0 blk st = Done blk st1 /\
    trace st' = trace st1 ++ map EvStop ["U_K"] ++ map EvStop [] /\
    now st' = now st1 /\
    all_buffers (fun cb => Circular_Buffer.stopped cb = true) st' [("U_K", port)] /\
    all_buffers (fun cb => Circular_Buffer.stopped cb = true) st' [].
Proof.
  intros st port blk st'.
  apply (worker_stops_every_buffer late_stop 1 0 blk blk st st'). reflexivity.
Defined.

Lemma reset_port_marks (k : string) bs st bs' st' :
  (do _ <- Buffered_Socket.reset bs ; ret bs) st = Done bs' st' ->
  bs' = bs /\ now st' = now st /\ trace st' = trace st ++ [] /\
  carried (fun cb => Circular_Buffer.contents cb = [] /\
                     Circular_Buffer.stopped cb = false) st st' /\
  forall b, In b (Buffered_Socket.buffer bs) ->
            exists cb, bufs st' !! b = Some cb /\
                       Circular_Buffer.contents cb = [] /\
                       Circular_Buffer.stopped cb = false.
Proof.
  unfold Buffered_Socket.reset, bindM.
  destruct (Buffered_Socket.for_each_buffer Circular_Buffer.reset
              (Buffered_Socket.buffer bs) st) as [[] st1|] eqn:Hrun; [|discriminate].
  intros [= <- <-].
  apply (for_each_buffer_marks _ (fun cb => Circular_Buffer.contents cb = [] /\
                                            Circular_Buffer.stopped cb = false)) in Hrun
    as (Hn & Ht & Hc & Hin); [|intros cb; split; reflexivity].
  rewrite app_nil_r. auto.
Qed.

Lemma reset_port_valid (k : string) bs st bs' st' :
  (do _ <- Buffered_Socket.reset bs ; ret bs) st = Done bs' st' ->
  bs' = bs /\ now st' = now st /\ trace st' = trace st ++ [] /\
  carried (fun _ => True) st st' /\
  forall b, In b (Buffered_Socket.buffer bs) ->
            exists cb, bufs st' !! b = Some cb /\ True.
Proof.
  unfold Buffered_Socket.reset, bindM.
  destruct (Buffered_Socket.for_each_buffer Circular_Buffer.reset
              (Buffered_Socket.buffer bs) st) as [[] st1|] eqn:Hrun; [|discriminate].
  intros [= <- <-].
  apply (for_each_buffer_marks _ (fun _ => True)) in Hrun
    as (Hn & Ht & Hc & Hin); [|intros cb; exact I].
  rewrite app_nil_r. auto.
Qed.

Lemma for_each_reset_returns : forall (m : list (string * Buffered_Socket.t)) st,
  all_buffers (fun _ => True) st m ->
  exists st', Block.for_each (fun _ bs => do _ <- Buffered_Socket.reset bs ; ret bs) m st
              = Done m st'.
Proof.
  unfold Buffered_Socket.reset.
  induction m as [|[k bs] m IH]; intros st Hvalid; [simpl; eauto|].
  rewrite for_each_cons. unfold bindM at 1.
  destruct (for_each_buffer_returns Circular_Buffer.reset (Buffered_Socket.buffer bs) st)
    as (st1 & Hrun).
  { intros b Hb. destruct (Hvalid k bs b ltac:(now left) Hb) as (cb & Hcb & _). eauto. }
  rewrite Hrun. simpl.
  pose proof (for_each_buffer_marks _ (fun _ => True) (fun _ => I) _ _ _ Hrun)
    as (_ & _ & Hc & _).
  destruct (IH st1) as (st2 & Hrest).
  { eapply all_buffers_carried; [|exact Hc].
    intros k' bs' b Hk Hb. apply (Hvalid k' bs' b); [now right|exact Hb]. }
  rewrite Hrest. eauto.
Qed.

(** X9. On a block whose ports hold valid buffers, [reset] returns, and it
    leaves every buffer of every port empty with its stopped flag cleared;
    the clock and the trace of the store are not touched. *)
Theorem reset_empties_every_buffer (blk : Block.t) (st : Store) :
  all_buffers (fun _ => True) st (Block.buffered_sockets_in blk) ->
  all_buffers (fun _ => True) st (Block.buffered_sockets_out blk) ->
  exists st',
    Block.reset blk st = Done tt st' /\
    now st' = now st /\ trace st' = trace st /\
    all_buffers (fun cb => Circular_Buffer.contents cb = [] /\
                           Circular_Buffer.stopped cb = false) st'
                (Block.buffered_sockets_in blk) /\
    all_buffers (fun cb => Circular_Buffer.contents cb = [] /\
                           Circular_Buffer.stopped cb = false) st'
                (Block.buffered_sockets_out blk).
Proof.
  intros Hin Hout.
  destruct (for_each_reset_returns _ st Hin) as (st1 & Hrun1).
  pose proof (for_each_marks _ _ (fun _ => []) reset_port_marks _ _ _ _ Hrun1)
    as (_ & Hn1 & Ht1 & Hc1 & Hall1).
  pose proof (for_each_marks _ _ (fun _ => []) reset_port_valid _ _ _ _ Hrun1)
    as (_ & _ & _ & Hv1 & _).
  destruct (for_each_reset_returns _ st1 (all_buffers_carried _ _ _ _ Hout Hv1))
    as (st2 & Hrun2).
  pose proof (for_each_marks _ _ (fun _ => []) reset_port_marks _ _ _ _ Hrun2)
    as (_ & Hn2 & Ht2 & Hc2 & Hall2).
  exists st2. split.
  - unfold Block.reset.
    rewrite (bind_done _ _ _ _ _ Hrun1), (bind_done _ _ _ _ _ Hrun2). reflexivity.
  - assert (Hnil : forall m : list (string * Buffered_Socket.t),
               concat (map (fun _ => @nil event) m) = []).
    { induction m as [|x m IH]; simpl; auto. }
    rewrite Hnil, app_nil_r in Ht1, Ht2.
    split; [congruence|]. split; [congruence|].
    split; [eapply all_buffers_carried; eauto|exact Hall2].
Qed.

Lemma reset_empties_every_buffer_witness :
  let st := {| bufs := [Circular_Buffer.mk [[7; 8]; [0; 0]] 1 0 1 true];
               now := 3; trace := [EvLoop] |} in
  let port := Buffered_Socket.mk (Socket_bind (declare "U_K" 2 "int32") 0) OUT 2
                [[0; 0]] [0%nat] 0 in
  let blk := Block.mk "generate" 1 generate 2 [] [("U_K", port)] in
  exists st',
    Block.reset blk st = Done tt st' /\
    now st' = 3%nat /\ trace st' = [EvLoop] /\
    all_buffers (fun cb => Circular_Buffer.contents cb = [] /\
                           Circular_Buffer.stopped cb = false) st' [] /\
    all_buffers (fun cb => Circular_Buffer.contents cb = [] /\
                           Circular_Buffer.stopped cb = false) st' [("U_K", port)].
Proof.
  intros st port blk.
  apply (reset_empties_every_buffer blk st).
  - intros k bs b [].
  - intros k bs b [[= <- <-]|[]] [<-|[]]. simpl. eauto.
Defined.

End Forwarding.

(** * Leaving the loops *)

Section Leaving.
Variable env : Env.

Lemma settled_bind {A B} (m : M A) (k : A -> M B) st :
  settled (m st) ->
  (forall a st1, m st = Done a st1 -> settled (k a st1)) ->
  settled (bindM m k st).
Proof.
  intros Hm Hk. unfold bindM. destruct (m st) as [a st1|w st1]; [now apply Hk|exact Hm].
Qed.

Lemma settled_pop bs st : settled (Buffered_Socket.pop bs st).
Proof.
  unfold Buffered_Socket.pop, bindM, at_index.
  destruct (Buffered_Socket.buffer bs !! 0%nat) as [b|]; simpl; [|exact I].
  unfold get_buf. destruct (bufs st !! b) as [cb|]; simpl; [|exact I].
  destruct (Buffered_Socket.socket_data bs !! 0%nat) as [r0|]; simpl; [|exact I].
  destruct (Circular_Buffer.pop cb r0) as [[rc r] cb']. simpl.
  destruct (rc =? 1); exact I.
Qed.

Lemma settled_for_each_buffer f : forall bf st,
  settled (Buffered_Socket.for_each_buffer f bf st).
Proof.
  induction bf as [|b bf IH]; intros st; [exact I|].
  rewrite for_each_buffer_step. destruct (bufs st !! b); [apply IH|exact I].
Qed.

Lemma settled_stop_ports : forall m st, settled (Block.for_each Block.stop_port m st).
Proof.
  induction m as [|[k bs] m IH]; intros st; [exact I|].
  rewrite for_each_cons. unfold Block.stop_port at 1, Buffered_Socket.stop, bindM.
  pose proof (settled_for_each_buffer Circular_Buffer.stop (Buffered_Socket.buffer bs) st) as H.
  destruct (Buffered_Socket.for_each_buffer _ _ st) as [[] st1|w st1]; [|exact H].
  simpl. specialize (IH (log (EvStop k) st1)).
  destruct (Block.for_each Block.stop_port m _); [exact I|exact IH].
Qed.

Variable T : nat.
Hypothesis stop_from_T : forall t, (T <= t)%nat -> isDone env t = true.

Lemma flag_clear_before st : isDone env (now st) = false -> (now st < T)%nat.
Proof.
  intros H. destruct (Nat.lt_ge_cases (now st) T) as [Hlt|Hge]; [exact Hlt|].
  rewrite stop_from_T in H by exact Hge. discriminate.
Qed.

(** A polling loop is left at the latest when the flag is read as set. *)
Lemma poll_settles k : forall fuel bs st,
  (T - now st < fuel)%nat -> settled (Block.poll env fuel k bs st).
Proof.
  induction fuel as [|fuel IH]; intros bs st Hfuel; [lia|].
  rewrite poll_turn. destruct (isDone env (now st)) eqn:Hflag; [exact I|].
  apply flag_clear_before in Hflag.
  pose proof (settled_pop bs (tick env st)) as Hs.
  destruct (pop_events bs (tick env st)) as (_ & _ & _ & _ & Hn).
  destruct (Buffered_Socket.pop bs (tick env st)) as [[rc bs'] st2|w st2]; [|exact Hs].
  simpl in Hn. destruct (rc =? 0); [exact I|].
  apply IH. simpl. lia.
Qed.

Lemma for_each_poll_settles fuel : forall m st,
  (T - now st < fuel)%nat -> settled (Block.for_each (Block.poll env fuel) m st).
Proof.
  induction m as [|[k bs] m IH]; intros st Hfuel; [exact I|].
  rewrite for_each_cons.
  pose proof (poll_settles k fuel bs st Hfuel) as Hs.
  destruct (poll_spec env fuel k bs st _ eq_refl) as (_ & _ & _ & Hn & _).
  destruct (Block.poll env fuel k bs st) as [bs' st1|w st1]; [|exact Hs].
  simpl in Hn. specialize (IH st1 ltac:(lia)).
  destruct (Block.for_each (Block.poll env fuel) m st1); [exact I|exact IH].
Qed.

Lemma main_loop_settles fuel task_id : forall n blk st,
  Block.buffered_sockets_out blk = [] ->
  (T - now st < n)%nat -> (T - now st < fuel)%nat ->
  settled (Block.main_loop env fuel n task_id blk st).
Proof.
  induction n as [|n IH]; intros blk st Hout Hn Hfuel; [lia|].
  rewrite main_loop_body. destruct (isDone env (now st)) eqn:Hflag; [exact I|].
  apply flag_clear_before in Hflag.
  pose proof (for_each_poll_settles fuel (Block.buffered_sockets_in blk)
                (log EvLoop (tick env st)) ltac:(simpl; lia)) as Hs.
  destruct (for_each_poll_spec env fuel (Block.buffered_sockets_in blk)
              (log EvLoop (tick env st)) _ eq_refl) as (_ & _ & _ & Hn2 & _).
  destruct (Block.for_each (Block.poll env fuel) _ _) as [ins st2|w st2]; [|exact Hs].
  simpl in Hn2. destruct (isDone env (now st2)); [exact I|].
  unfold Block.exec. destruct (_ && _); [|exact I].
  unfold bindM, emit, ret. simpl. rewrite Hout. simpl.
  apply IH; simpl; [reflexivity|lia|lia].
Qed.

(** X10. A worker whose block has no output port leaves its loops once the
    stop flag is set: with a bound larger than the number of instants left
    before the flag is set for good, the run is never found still looping. It
    returns, or it stops on a fault. *)
Theorem worker_without_outputs_sees_stop (fuel : nat) (task_id : Z) (blk : Block.t)
    (st : Store) :
  Block.buffered_sockets_out blk = [] ->
  (T - now st < fuel)%nat ->
  settled (Block.execute_task env fuel task_id blk st).
Proof.
  intros Hout Hfuel. unfold Block.execute_task.
  apply settled_bind; [now apply main_loop_settles|]. intros blk' st1 _.
  apply settled_bind; [apply settled_stop_ports|]. intros _ st2 _.
  apply settled_bind; [apply settled_stop_ports|]. intros _ st3 _. exact I.
Qed.

End Leaving.

Lemma worker_without_outputs_sees_stop_witness :
  let port name := Buffered_Socket.mk (Socket_bind (declare name 2 "int32") 0) IN 8
                     [[0; 0]] [0%nat] 0 in
  let blk := Block.mk "check_errors" 1 check_errors 8 [("U", port "U"); ("V", port "V")] [] in
  let st := {| bufs := [Circular_Buffer.mk [[0; 0]] 0 0 0 false]; now := 0; trace := [] |} in
  settled (Block.execute_task late_stop 7 0 blk st).
Proof.
  intros port blk st.
  apply (worker_without_outputs_sees_stop late_stop 6).
  - intros t Ht. change (isDone late_stop t) with (6 <=? t)%nat. apply Nat.leb_le. lia.
  - reflexivity.
  - simpl. lia.
Defined.

(** X11. A worker started on a block whose first input port, in the order
    of the map, has not been bound stops on a fault in its first turn, while
    the flag is clear: [pop] indexes the empty vector of buffers. The task is
    not called and no port is stopped. *)
Theorem run_before_bind_faults (env : Env) (fuel : nat) (task_id : Z) (blk : Block.t)
    (st : Store) (k : string) (bs : Buffered_Socket.t)
    (rest : list (string * Buffered_Socket.t)) :
  Block.buffered_sockets_in blk = (k, bs) :: rest ->
  Buffered_Socket.buffer bs = [] ->
  isDone env (now st) = false ->
  isDone env (S (now st)) = false ->
  Block.execute_task env (S fuel) task_id blk st =
    Halt (Fault OutOfRange) (tick env (log EvLoop (tick env st))).
Proof.
  intros Hin Hbuf Hflag1 Hflag2.
  unfold Block.execute_task, bindM.
  rewrite main_loop_body, Hflag1, Hin, for_each_cons, poll_turn.
  simpl now. rewrite Hflag2.
  unfold Buffered_Socket.pop, bindM, at_index. rewrite Hbuf. reflexivity.
Qed.

Lemma run_before_bind_faults_witness :
  exists bl_encoder st,
    Block.new encode 8 1 empty_store = Done bl_encoder st /\
    Block.execute_task late_stop 1 0 bl_encoder st =
      Halt (Fault OutOfRange) (tick late_stop (log EvLoop (tick late_stop st))).
Proof.
  eexists. eexists. split; [vm_compute; reflexivity|].
  eapply (run_before_bind_faults late_stop 0 0); reflexivity.
Defined.

(** * Diagnostics *)

Lemma print_lines_spec name bf st :
  (forall b, In b bf -> is_Some (bufs st !! b)) ->
  forall count j,
    (j <= length bf)%nat ->
    print_lines name bf j count st =
    if (j + count <=? length bf)%nat
    then Done (map (fun i => socket_data_line name i (reported st bf i)) (seq j count)) st
    else Halt (Fault OutOfRange) st.
Proof.
  intros Hvalid. induction count as [|count IH]; intros j Hj.
  - simpl. rewrite Nat.add_0_r. destruct (Nat.leb_spec j (length bf)); [reflexivity|lia].
  - simpl. unfold bindM at 1, at_index.
    destruct (bf !! j) as [b|] eqn:Hb.
    + pose proof (lookup_lt_Some _ _ _ Hb) as Hlt.
      destruct (Hvalid b) as [cb Hcb].
      { apply list_elem_of_In. eapply list_elem_of_lookup_2; eauto. }
      unfold ret at 1. unfold bindM at 1, get_buf. rewrite Hcb.
      unfold bindM. rewrite IH by lia.
      replace (j + S count)%nat with (S j + count)%nat by lia.
      destruct (S j + count <=? length bf)%nat; [|reflexivity].
      unfold ret, reported. now rewrite Hb, Hcb.
    + apply lookup_ge_None in Hb.
      destruct (Nat.leb_spec (j + S count) (length bf)); [lia|reflexivity].
Qed.

(** X12. [print_socket_data] writes one line for each staging record, with
    the occupancy of the buffer at the same position. On a port whose
    buffers are valid it returns these lines when the port has at least as
    many buffers as staging records, and the buffers beyond them are not
    reported; with fewer buffers, as on every input port that is not bound
    yet, it indexes the vector of buffers out of range. *)
Theorem print_socket_data_lines (name : string) (bs : Buffered_Socket.t) (st : Store) :
  (forall b, In b (Buffered_Socket.buffer bs) -> is_Some (bufs st !! b)) ->
  print_socket_data name bs st =
  if (length (Buffered_Socket.socket_data bs) <=? length (Buffered_Socket.buffer bs))%nat
  then Done (map (fun j => socket_data_line name j
                             (reported st (Buffered_Socket.buffer bs) j))
                 (seq 0 (length (Buffered_Socket.socket_data bs)))) st
  else Halt (Fault OutOfRange) st.
Proof.
  intros Hvalid. unfold print_socket_data.
  rewrite (print_lines_spec name _ st Hvalid) by lia. reflexivity.
Qed.

Lemma print_socket_data_lines_witness :
  let st := {| bufs := [Circular_Buffer.mk [[7; 8]; [0; 0]] 1 0 1 false;
                        Circular_Buffer.mk [[0; 0]; [0; 0]] 0 0 0 false];
               now := 0; trace := [] |} in
  let out := Buffered_Socket.mk (Socket_bind (declare "U_K" 2 "int32") 0) OUT 2
               [[0; 0]; [0; 0]] [0%nat; 1%nat] 0 in
  print_socket_data "U_K" out st =
    Done ["U_K(0): Buffer Size : [ 1]" +:+ String (Ascii.ascii_of_nat 10) "";
          "U_K(1): Buffer Size : [ 0]" +:+ String (Ascii.ascii_of_nat 10) ""] st.
Proof.
  intros st out.
  rewrite (print_socket_data_lines "U_K" out st).
  - reflexivity.
  - intros b [<-|[<-|[]]]; simpl; eauto.
Defined.

(** * From construction to a connected pair of blocks *)

Section Wiring.

Lemma new_block_port tsk capacity n_threads st blk st' s ty T :
  Block.new tsk capacity n_threads st = Done blk st' ->
  NoDup (declared_names (sockets tsk)) ->
  In (s, ty) (sockets tsk) ->
  Block.instantiation (datatype_string s) = Some T ->
  (exists more, bufs st' = bufs st ++ more) /\
  exists bs, port_built s ty capacity st' bs /\
             get_buffered_socket ty blk T (sck_name s) = Some bs.
Proof.
  intros Hnew Hnd Hin Hkind.
  unfold Block.new in Hnew. destruct (n_threads <? 0); [discriminate|].
  unfold bindM in Hnew.
  destruct (Block.make_sockets (sockets tsk) capacity [] [] st) as [[ins outs] st1|] eqn:Hm;
    [|discriminate].
  injection Hnew as <- <-.
  split; [now apply make_sockets_grows in Hm as (_ & _ & Hg)|].
  pose proof (make_sockets_port capacity s ty _ _ _ _ _ _ _ Hm Hnd Hin eq_refl eq_refl) as H.
  rewrite Hkind in H. destruct H as (bs & Hbuilt & Hfind).
  exists bs. split; [exact Hbuilt|].
  assert (Hd : datatype_string (Buffered_Socket.socket bs) = type_to_string T).
  { destruct Hbuilt as (-> & _). simpl. now apply instantiation_kind. }
  unfold get_buffered_socket, Block.get_buffered_socket_in, Block.get_buffered_socket_out.
  simpl. destruct (Socket_type_eqb ty IN); destruct Hfind as [-> _];
    now rewrite Hd, String.eqb_refl.
Qed.

Lemma bind_found this dest start dest_name T sck prod b st :
  Block.get_buffered_socket_in this T start = Some sck ->
  Block.get_buffered_socket_out dest T dest_name = Some prod ->
  Buffered_Socket.get_last_buffer prod = Some b ->
  Block.bind this start dest dest_name st =
    Done (0, Block.with_in this
               (StdMap.update start
                  (Buffered_Socket.with_buffer sck (Buffered_Socket.buffer sck ++ [b]))
                  (Block.buffered_sockets_in this))) st.
Proof.
  intros Hin Hout Hlast.
  assert (Hfind : StdMap.find start (Block.buffered_sockets_in this) = Some sck /\
                  datatype_string (Buffered_Socket.socket sck) = type_to_string T).
  { unfold Block.get_buffered_socket_in in Hin.
    destruct (StdMap.find start (Block.buffered_sockets_in this)) as [bs|]; [|discriminate].
    destruct (String.eqb_spec (datatype_string (Buffered_Socket.socket bs))
                (type_to_string T)); [|discriminate].
    now injection Hin as ->. }
  destruct Hfind as [Hfind Hkind].
  unfold Block.bind, Block.bind_as, Block.get_buffered_socket_in.
  rewrite Hfind, Hkind.
  destruct T; simpl; unfold bindM, Buffered_Socket.bind; rewrite Hout, Hlast; reflexivity.
Qed.

(** X13. Two blocks built one after the other can be connected: when the
    producer's task declares an output (or in-out) socket and the consumer's
    task an input socket of the same one of the six kinds, [bind] of the
    consumer answers 0, creates no buffer, and afterwards the consumer's port
    holds exactly the buffer of the producer's port. That buffer has the
    capacity given to the producer's block and the width of the producer's
    socket; the capacity given to the consumer's block and the width of the
    consumer's socket play no part. *)
Theorem constructed_blocks_connect (tp tc : Task) (cap_p cap_c np nc : Z)
    (st st1 st2 : Store) (bp bc : Block.t) (sp sc : Socket) (ty : Socket_type)
    (T : scalar) :
  Block.new tp cap_p np st = Done bp st1 ->
  Block.new tc cap_c nc st1 = Done bc st2 ->
  NoDup (declared_names (sockets tp)) ->
  NoDup (declared_names (sockets tc)) ->
  In (sp, ty) (sockets tp) -> ty <> IN ->
  In (sc, IN) (sockets tc) ->
  Block.instantiation (datatype_string sp) = Some T ->
  Block.instantiation (datatype_string sc) = Some T ->
  exists bc' pin pout b cb,
    Block.bind bc (sck_name sc) bp (sck_name sp) st2 = Done (0, bc') st2 /\
    Block.get_buffered_socket_in bc' T (sck_name sc) = Some pin /\
    Block.get_buffered_socket_out bp T (sck_name sp) = Some pout /\
    Buffered_Socket.buffer pin = [b] /\
    Buffered_Socket.buffer pout = [b] /\
    bufs st2 !! b = Some cb /\
    Circular_Buffer.new cap_p (n_elmts sp) = Some cb.
Proof.
  intros Hp Hc Hndp Hndc Hinp Hty Hinc Hkp Hkc.
  destruct (new_block_port _ _ _ _ _ _ _ _ _ Hp Hndp Hinp Hkp) as (_ & pout & Hbp & Hfp).
  destruct (new_block_port _ _ _ _ _ _ _ _ _ Hc Hndc Hinc Hkc)
    as ((more & Hgrow) & pin & Hbc & Hfc).
  unfold get_buffered_socket in Hfp, Hfc.
  assert (Hout : Socket_type_eqb ty IN = false) by (destruct ty; [congruence|done|done]).
  rewrite Hout in Hfp. simpl in Hfc.
  destruct Hbp as (_ & _ & _ & _ & Hbuf). rewrite Hout in Hbuf.
  destruct Hbuf as (b & cb & Hb & Hcb & Hnew).
  destruct Hbc as (Hsck & _ & _ & _ & Hempty). simpl in Hempty.
  assert (Hlast : Buffered_Socket.get_last_buffer pout = Some b).
  { unfold Buffered_Socket.get_last_buffer. now rewrite Hb. }
  rewrite (bind_found bc bp _ _ T pin pout b st2 Hfc Hfp Hlast).
  eexists. exists (Buffered_Socket.with_buffer pin [b]), pout, b, cb.
  split; [reflexivity|]. rewrite Hempty. simpl.
  split.
  - unfold Block.get_buffered_socket_in in *. simpl. rewrite find_update_same.
    destruct (StdMap.find (sck_name sc) (Block.buffered_sockets_in bc)) as [bs|];
      [|discriminate].
    destruct (String.eqb (datatype_string (Buffered_Socket.socket bs)) (type_to_string T))
      eqn:E; [|discriminate].
    injection Hfc as ->. simpl. now rewrite E.
  - repeat split; auto. rewrite Hgrow. now apply lookup_app_l_Some.
Qed.

End Wiring.

Lemma constructed_blocks_connect_witness :
  exists bl_source bl_encoder bl_encoder' st1 st2 pin pout b cb,
    Block.new generate 8 1 empty_store = Done bl_source st1 /\
    Block.new encode 8 1 st1 = Done bl_encoder st2 /\
    Block.bind bl_encoder "U_K" bl_source "U_K" st2 = Done (0, bl_encoder') st2 /\
    Block.get_buffered_socket_in bl_encoder' int32_t "U_K" = Some pin /\
    Block.get_buffered_socket_out bl_source int32_t "U_K" = Some pout /\
    Buffered_Socket.buffer pin = [b] /\
    Buffered_Socket.buffer pout = [b] /\
    bufs st2 !! b = Some cb /\
    Circular_Buffer.new 8 16 = Some cb.
Proof.
  assert (Hp : exists blk st', Block.new generate 8 1 empty_store = Done blk st')
    by (eexists; eexists; vm_compute; reflexivity).
  destruct Hp as (bp & st1 & Hp).
  assert (Hc : exists blk st', Block.new encode 8 1 st1 = Done blk st').
  { vm_compute in Hp. injection Hp as <- <-. eexists. eexists. vm_compute. reflexivity. }
  destruct Hc as (bc & st2 & Hc).
  destruct (constructed_blocks_connect generate encode 8 8 1 1 empty_store st1 st2 bp bc
              (declare "U_K" 16 "int32") (declare "U_K" 16 "int32") OUT int32_t Hp Hc)
    as (bc' & pin & pout & b & cb & H).
  - apply (bool_decide_unpack _). vm_compute. exact I.
  - apply (bool_decide_unpack _). vm_compute. exact I.
  - simpl. auto.
  - discriminate.
  - simpl. auto.
  - reflexivity.
  - reflexivity.
  - exists bp, bc, bc', st1, st2, pin, pout, b, cb. tauto.
Defined.
